(** * Job scheduling and file lifecycle of mp4_to_wav

    Shallow embedding of [src/services/ConversionService.ts], of
    [FileManager.cleanupOldFiles] and [FileManager.cleanupJob] from
    [src/services/FileManager.ts], and of the [ffprobe]/[ffmpeg] logic of
    [src/services/FFmpegWrapper.ts].

    The service is a record of the fields of the TypeScript class.  The
    asynchronous parts of [processJob] (the watchdog [setTimeout] and the
    pending [extractAudio] promise) are modelled by two sets of job ids:
    [timers] (armed watchdog timers) and [engines] (pending engine calls).
    The environment then drives the service with events: a timer firing,
    the engine resolving or rejecting, or a progress callback.  Each event
    handler runs to completion, as a JavaScript callback does.

    Job ids come from [uuidv4]; they are modelled by a counter [nextId],
    which gives the same uniqueness and in addition numbers the jobs in
    submission order.  [new Date()] reads the clock [clock], advanced by
    the [EvTick] event.  Progress percentages are JavaScript numbers that
    the code only compares and takes the minimum of; they are modelled as
    integers. *)

From Stdlib Require Import ZArith Lia Sorting.Sorted Ascii.
From stdpp Require Import base gmap list strings pretty.

(** ** Data model ([types/index.ts]) *)

Inductive JobStatus := Queued | Processing | Completed | Failed | Cancelled.

#[global] Instance JobStatus_eq_dec : EqDecision JobStatus.
Proof. solve_decision. Defined.

Record AudioMetadata := mkAudioMetadata {
  sampleRate : Z;
  bitDepth : Z;
  channels : Z;
  duration : Z;
  codec : string;
  bitrate : Z
}.

Record ConversionJob := mkJob {
  jobId : nat;
  inputPath : string;
  outputPath : string;
  originalFilename : string;
  status : JobStatus;
  progress : Z;
  createdAt : Z;
  completedAt : option Z;
  error : option string;
  metadata : option AudioMetadata
}.

Definition set_status (st : JobStatus) (j : ConversionJob) : ConversionJob :=
  mkJob (jobId j) (inputPath j) (outputPath j) (originalFilename j) st
    (progress j) (createdAt j) (completedAt j) (error j) (metadata j).

Definition set_progress (p : Z) (j : ConversionJob) : ConversionJob :=
  mkJob (jobId j) (inputPath j) (outputPath j) (originalFilename j) (status j)
    p (createdAt j) (completedAt j) (error j) (metadata j).

Definition set_completedAt (t : option Z) (j : ConversionJob) : ConversionJob :=
  mkJob (jobId j) (inputPath j) (outputPath j) (originalFilename j) (status j)
    (progress j) (createdAt j) t (error j) (metadata j).

Definition set_error (e : option string) (j : ConversionJob) : ConversionJob :=
  mkJob (jobId j) (inputPath j) (outputPath j) (originalFilename j) (status j)
    (progress j) (createdAt j) (completedAt j) e (metadata j).

Definition set_metadata (m : option AudioMetadata) (j : ConversionJob) : ConversionJob :=
  mkJob (jobId j) (inputPath j) (outputPath j) (originalFilename j) (status j)
    (progress j) (createdAt j) (completedAt j) (error j) m.

(** ** The service state ([class ConversionService]) *)

(** Calls with an effect outside the job records, recorded in order so that
    the number of releases and admission attempts can be counted.
    [ProcessNextJob (Some id)] is a call of [processNextJob] made by the
    termination of job [id]; [ProcessNextJob None] the call in [queueJob]. *)
Inductive Effect :=
| ClearTimeout (jid : nat)
| ProcessingDelete (jid : nat)
| ProcessNextJob (cause : option nat)
| CleanupJob (jid : nat).

#[global] Instance Effect_eq_dec : EqDecision Effect.
Proof. solve_decision. Defined.

Record ConversionService := mkService {
  jobs : gmap nat ConversionJob;
  queue : list nat;
  processing : gset nat;
  maxConcurrentJobs : Z;
  conversionTimeout : Z;
  timers : gset nat;
  engines : gset nat;
  nextId : nat;
  clock : Z;
  effects : list Effect
}.

Definition set_jobs (m : gmap nat ConversionJob) (s : ConversionService) :=
  mkService m (queue s) (processing s) (maxConcurrentJobs s) (conversionTimeout s)
    (timers s) (engines s) (nextId s) (clock s) (effects s).
Definition set_queue (q : list nat) (s : ConversionService) :=
  mkService (jobs s) q (processing s) (maxConcurrentJobs s) (conversionTimeout s)
    (timers s) (engines s) (nextId s) (clock s) (effects s).
Definition set_processing (p : gset nat) (s : ConversionService) :=
  mkService (jobs s) (queue s) p (maxConcurrentJobs s) (conversionTimeout s)
    (timers s) (engines s) (nextId s) (clock s) (effects s).
Definition set_timers (t : gset nat) (s : ConversionService) :=
  mkService (jobs s) (queue s) (processing s) (maxConcurrentJobs s) (conversionTimeout s)
    t (engines s) (nextId s) (clock s) (effects s).
Definition set_engines (e : gset nat) (s : ConversionService) :=
  mkService (jobs s) (queue s) (processing s) (maxConcurrentJobs s) (conversionTimeout s)
    (timers s) e (nextId s) (clock s) (effects s).
Definition set_nextId (n : nat) (s : ConversionService) :=
  mkService (jobs s) (queue s) (processing s) (maxConcurrentJobs s) (conversionTimeout s)
    (timers s) (engines s) n (clock s) (effects s).
Definition set_clock (c : Z) (s : ConversionService) :=
  mkService (jobs s) (queue s) (processing s) (maxConcurrentJobs s) (conversionTimeout s)
    (timers s) (engines s) (nextId s) c (effects s).
Definition log (e : Effect) (s : ConversionService) :=
  mkService (jobs s) (queue s) (processing s) (maxConcurrentJobs s) (conversionTimeout s)
    (timers s) (engines s) (nextId s) (clock s) (effects s ++ [e]).

(** [constructor]: an empty registry, queue and processing set. *)
Definition newConversionService (maxConcurrentJobs conversionTimeout : Z) :=
  mkService ∅ [] ∅ maxConcurrentJobs conversionTimeout ∅ ∅ 0 0 [].

(** ** [processJob], synchronous part: arm the watchdog timer and start
    [extractAudio]; the rest of [processJob] runs in the event handlers
    below. *)
Definition processJob (jid : nat) (s : ConversionService) : ConversionService :=
  set_engines ({[jid]} ∪ engines s) (set_timers ({[jid]} ∪ timers s) s).

(** ** [processNextJob].  The recursive call on a popped id without a
    record is bounded by the queue length: [fuel] is one more than it. *)
Fixpoint processNextJob_aux (fuel : nat) (s : ConversionService) : ConversionService :=
  match fuel with
  | O => s
  | S fuel' =>
      if bool_decide (maxConcurrentJobs s <= Z.of_nat (size (processing s)))%Z then s
      else
        match queue s with
        | [] => s
        | jid :: rest =>
            let s1 := set_queue rest s in
            match jobs s1 !! jid with
            | None => processNextJob_aux fuel' s1
            | Some job =>
                let s2 := set_processing ({[jid]} ∪ processing s1) s1 in
                let s3 := set_jobs
                            (<[jid := set_progress 0 (set_status Processing job)]> (jobs s2)) s2 in
                processJob jid s3
            end
        end
  end.

Definition processNextJob (cause : option nat) (s : ConversionService) : ConversionService :=
  let s := log (ProcessNextJob cause) s in
  processNextJob_aux (S (length (queue s))) s.

(** ** [queueJob] *)
Definition queueJob (inputPath outputPath originalFilename : string)
    (s : ConversionService) : nat * ConversionService :=
  let jid := nextId s in
  let job := mkJob jid inputPath outputPath originalFilename Queued 0 (clock s)
               None None None in
  let s1 := set_nextId (S jid) s in
  let s2 := set_jobs (<[jid := job]> (jobs s1)) s1 in
  let s3 := set_queue (queue s2 ++ [jid]) s2 in
  (jid, processNextJob None s3).

(** ** [cancelJob] *)

(** [queue.indexOf(jobId)] followed by [queue.splice(index, 1)]: removes
    the first occurrence, if any. *)
Fixpoint splice_first (x : nat) (l : list nat) : list nat :=
  match l with
  | [] => []
  | y :: l' => if decide (x = y) then l' else y :: splice_first x l'
  end.

Definition cancelJob (jid : nat) (s : ConversionService) : bool * ConversionService :=
  match jobs s !! jid with
  | None => (false, s)
  | Some job =>
      if bool_decide (status job <> Queued /\ status job <> Processing) then (false, s)
      else
        let s1 := if decide (status job = Queued)
                  then set_queue (splice_first jid (queue s)) s else s in
        let s2 := if decide (status job = Processing)
                  then log (ProcessingDelete jid)
                         (set_processing (processing s1 ∖ {[jid]}) s1)
                  else s1 in
        let job' := set_completedAt (Some (clock s2)) (set_status Cancelled job) in
        let s3 := set_jobs (<[jid := job']> (jobs s2)) s2 in
        (true, log (CleanupJob jid) s3)
  end.

(** ** The asynchronous parts of [processJob] *)

(** The progress callback passed to [extractAudio]. *)
Definition onProgress (percent : Z) (job : ConversionJob) : ConversionJob :=
  if bool_decide (progress job < percent)%Z
  then set_progress (Z.min 100 percent) job
  else job.

(** [clearTimeout(timeoutId)] *)
Definition clearTimeout (jid : nat) (s : ConversionService) : ConversionService :=
  log (ClearTimeout jid) (set_timers (timers s ∖ {[jid]}) s).

(** The [finally] block. *)
Definition finallyBlock (jid : nat) (s : ConversionService) : ConversionService :=
  let s := log (ProcessingDelete jid) (set_processing (processing s ∖ {[jid]}) s) in
  processNextJob (Some jid) s.

(** The promise of [extractAudio] resolves with [metadata]. *)
Definition onEngineResolve (jid : nat) (md : AudioMetadata) (s : ConversionService)
    : ConversionService :=
  let s := set_engines (engines s ∖ {[jid]}) s in
  let s :=
    match jobs s !! jid with
    | None => s
    | Some job =>
        if decide (status job = Cancelled) then clearTimeout jid s
        else
          let job' := set_completedAt (Some (clock s))
                        (set_metadata (Some md)
                          (set_progress 100 (set_status Completed job))) in
          clearTimeout jid (set_jobs (<[jid := job']> (jobs s)) s)
    end in
  finallyBlock jid s.

(** The promise of [extractAudio] rejects; [err] is the message when the
    rejection value is an [Error], [None] otherwise. *)
Definition onEngineReject (jid : nat) (err : option string) (s : ConversionService)
    : ConversionService :=
  let s := set_engines (engines s ∖ {[jid]}) s in
  let s := clearTimeout jid s in
  let s :=
    match jobs s !! jid with
    | None => s
    | Some job =>
        let msg := match err with
                   | Some m => m
                   | None => "Unknown error occurred"%string
                   end in
        let job' := set_completedAt (Some (clock s))
                      (set_error (Some msg) (set_status Failed job)) in
        set_jobs (<[jid := job']> (jobs s)) s
    end in
  finallyBlock jid s.

(** The watchdog timer of [processJob] fires. *)
Definition onTimeout (jid : nat) (s : ConversionService) : ConversionService :=
  let s := set_timers (timers s ∖ {[jid]}) s in
  let s :=
    match jobs s !! jid with
    | None => s
    | Some job =>
        let job' := set_completedAt (Some (clock s))
                      (set_error (Some "Conversion timeout exceeded"%string)
                        (set_status Failed job)) in
        set_jobs (<[jid := job']> (jobs s)) s
    end in
  let s := log (ProcessingDelete jid) (set_processing (processing s ∖ {[jid]}) s) in
  processNextJob (Some jid) s.

(** ** Events and the step function *)

Inductive Event :=
| EvQueueJob (inputPath outputPath originalFilename : string)
| EvCancel (jid : nat)
| EvProgress (jid : nat) (percent : Z)
| EvEngineResolve (jid : nat) (md : AudioMetadata)
| EvEngineReject (jid : nat) (err : option string)
| EvTimeout (jid : nat)
| EvTick.

(** [None] when the event cannot happen: callbacks of the engine only while
    its promise is pending, the timer only while it is armed. *)
Definition step (s : ConversionService) (e : Event) : option ConversionService :=
  match e with
  | EvQueueJob i o f => Some (snd (queueJob i o f s))
  | EvCancel jid => Some (snd (cancelJob jid s))
  | EvProgress jid p =>
      if bool_decide (jid ∈ engines s)
      then Some (set_jobs (alter (onProgress p) jid (jobs s)) s) else None
  | EvEngineResolve jid md =>
      if bool_decide (jid ∈ engines s) then Some (onEngineResolve jid md s) else None
  | EvEngineReject jid err =>
      if bool_decide (jid ∈ engines s) then Some (onEngineReject jid err s) else None
  | EvTimeout jid =>
      if bool_decide (jid ∈ timers s) then Some (onTimeout jid s) else None
  | EvTick => Some (set_clock (clock s + 1)%Z s)
  end.

Fixpoint run (s : ConversionService) (es : list Event) : option ConversionService :=
  match es with
  | [] => Some s
  | e :: es' => match step s e with Some s' => run s' es' | None => None end
  end.

Inductive reachable : ConversionService -> Prop :=
| reach_init (c t : Z) : reachable (newConversionService c t)
| reach_step (s s' : ConversionService) (e : Event) :
    reachable s -> step s e = Some s' -> reachable s'.

Definition job_status (jid : nat) (s : ConversionService) : option JobStatus :=
  status <$> jobs s !! jid.

Definition count_effect (x : Effect) (l : list Effect) : nat :=
  length (filter (fun y => y = x) l).

(** ** Read accessors of the service *)

(** The JavaScript [a || d] on an optional string and on an optional
    number: [d] when [a] is absent or falsy (the empty string, zero). *)
Definition or_string (a : option string) (d : string) : string :=
  match a with
  | Some v => if bool_decide (v = EmptyString) then d else v
  | None => d
  end.

Definition or_number (a : option Z) (d : Z) : Z :=
  match a with
  | Some v => if bool_decide (v = 0%Z) then d else v
  | None => d
  end.

(** [Number.prototype.toFixed(0)] on the integer progress: its decimal
    representation. *)
Definition toFixed0 (x : Z) : string := pretty x.

(** [getStatusMessage]; the [default] branch of the [switch] is dead, the
    status being one of the five constructors. *)
Definition getStatusMessage (job : ConversionJob) : string :=
  match status job with
  | Queued => "Waiting in queue..."
  | Processing =>
      String.append "Converting audio... "
        (String.append (toFixed0 (progress job)) "%")
  | Completed => "Conversion completed successfully"
  | Failed => or_string (error job) "Conversion failed"
  | Cancelled => "Conversion cancelled"
  end.

(** [ConversionStatus] of [types/index.ts]. *)
Record ConversionStatus := mkConversionStatus {
  statusJobId : nat;
  statusStatus : JobStatus;
  statusProgress : Z;
  statusMessage : string;
  statusOutputFile : option string
}.

Definition getJobStatus (jid : nat) (s : ConversionService) : option ConversionStatus :=
  match jobs s !! jid with
  | None => None
  | Some job =>
      Some (mkConversionStatus (jobId job) (status job) (progress job)
              (getStatusMessage job)
              (if decide (status job = Completed) then Some (outputPath job) else None))
  end.

Definition getQueueLength (s : ConversionService) : nat := length (queue s).

Definition getProcessingCount (s : ConversionService) : nat := size (processing s).

(** The state that [queueJob] hands to [processNextJob]: the new record
    registered under the next id and the id pushed on the queue. *)
Definition enqueue (inputPath outputPath originalFilename : string)
    (s : ConversionService) : ConversionService :=
  let jid := nextId s in
  set_queue (queue s ++ [jid])
    (set_jobs (<[jid := mkJob jid inputPath outputPath originalFilename Queued 0
                         (clock s) None None None]> (jobs s))
       (set_nextId (S jid) s)).

(** ** [FileManager.cleanupOldFiles] *)

(** An entry of [fs.readdir(uploadsDir, { withFileTypes: true })]. *)
Record Dirent := mkDirent { name : string; isDirectory : bool }.

Record FileManager := mkFileManager {
  uploadsDir : string;
  cleanupTimers : gset string
}.

(** The outcome of [fs.readdir]: the entries, or the error code. *)
Inductive ReaddirResult :=
| ReaddirOk (entries : list Dirent)
| ReaddirErr (code : string).

(** The [for] loop.  [dirs] maps the name of each job directory that
    exists when it is examined to its [mtimeMs].  [fs.stat] throws when the
    entry has vanished since [readdir] (it is absent from [dirs]) or when
    [statErr] gives an error code for it; [fs.rm] (with [force: true]) throws
    when [rmErr] gives one.  Whatever is thrown, the [catch] continues with
    the next entry: the directory is neither removed nor counted, and its
    timer is kept. *)
Fixpoint sweep_entries (now maxAgeMs : Z) (statErr rmErr : string -> option string)
    (entries : list Dirent) (dirs : gmap string Z) (timers : gset string) (cleanedCount : Z)
    : gmap string Z * gset string * Z :=
  match entries with
  | [] => (dirs, timers, cleanedCount)
  | entry :: rest =>
      if isDirectory entry then
        match dirs !! name entry, statErr (name entry) with
        | Some mtimeMs, None =>
            let age := (now - mtimeMs)%Z in
            if bool_decide (maxAgeMs < age)%Z then
              match rmErr (name entry) with
              | None =>
                  sweep_entries now maxAgeMs statErr rmErr rest (delete (name entry) dirs)
                    (timers ∖ {[name entry]}) (cleanedCount + 1)%Z
              | Some _ => sweep_entries now maxAgeMs statErr rmErr rest dirs timers cleanedCount
              end
            else sweep_entries now maxAgeMs statErr rmErr rest dirs timers cleanedCount
        | _, _ => sweep_entries now maxAgeMs statErr rmErr rest dirs timers cleanedCount
        end
      else sweep_entries now maxAgeMs statErr rmErr rest dirs timers cleanedCount
  end.

(** [cleanupOldFiles(maxAgeMs)] with [Date.now()] = [now]: the count, the
    remaining directories and the file manager, or the error rethrown. *)
Definition cleanupOldFiles (maxAgeMs now : Z) (readdir : ReaddirResult)
    (statErr rmErr : string -> option string)
    (dirs : gmap string Z) (fm : FileManager)
    : string + (Z * gmap string Z * FileManager) :=
  match readdir with
  | ReaddirOk entries =>
      let '(dirs', timers', cleanedCount) :=
        sweep_entries now maxAgeMs statErr rmErr entries dirs (cleanupTimers fm) 0 in
      inr (cleanedCount, dirs', mkFileManager (uploadsDir fm) timers')
  | ReaddirErr code =>
      if bool_decide (code = "ENOENT"%string) then inr (0%Z, dirs, fm) else inl code
  end.

(** A directory that still exists and is strictly older than [maxAgeMs]. *)
Definition is_old (now maxAgeMs : Z) (dirs : gmap string Z) (e : Dirent) : bool :=
  if isDirectory e then
    match dirs !! name e with
    | Some mtimeMs => bool_decide (maxAgeMs < now - mtimeMs)%Z
    | None => false
    end
  else false.


(** ** [FileManager.cleanupJob] *)

(** POSIX paths.  A path is split at ['/'] into segments; an absolute
    path is the list of its segments below the root. *)
Fixpoint segments_aux (s : string) (acc : list Ascii.ascii) : list string :=
  match s with
  | EmptyString => [String.string_of_list_ascii (rev acc)]
  | String c rest =>
      if Ascii.eqb c "/"%char then String.string_of_list_ascii (rev acc) :: segments_aux rest []
      else segments_aux rest (c :: acc)
  end.

Definition segments (s : string) : list string := segments_aux s [].

(** Normalisation, as [path.join] and the resolution of a path by [fs]
    do it: empty and ["."] segments are dropped, [".."] goes up one level
    (and stays at the root).  [stack] holds the segments seen so far, the
    last one first. *)
Fixpoint normalize_aux (stack : list string) (segs : list string) : list string :=
  match segs with
  | [] => stack
  | seg :: rest =>
      if bool_decide (seg = EmptyString \/ seg = "."%string) then normalize_aux stack rest
      else if bool_decide (seg = ".."%string) then normalize_aux (tail stack) rest
      else normalize_aux (seg :: stack) rest
  end.

Definition resolve_segments (segs : list string) : list string := rev (normalize_aux [] segs).

(** The absolute path [fs] acts on for [uploadsDir] (relative paths are
    resolved against the working directory [cwd]). *)
Definition uploadsPath (cwd : list string) (uploadsDir : string) : list string :=
  resolve_segments ((if String.prefix "/" uploadsDir then [] else cwd) ++ segments uploadsDir).

(** The absolute path of [path.join(this.uploadsDir, jobId)]: [path.join]
    concatenates with ['/'] and normalises. *)
Definition jobDirPath (cwd : list string) (uploadsDir jobId : string) : list string :=
  resolve_segments ((if String.prefix "/" uploadsDir then [] else cwd) ++
                    segments uploadsDir ++ segments jobId).

(** A single path segment, such as an id produced by [uuidv4]. *)
Definition plain_segment (s : string) : bool :=
  bool_decide (s <> EmptyString /\ s <> "."%string /\ s <> ".."%string) &&
  forallb (fun c => negb (Ascii.eqb c "/"%char)) (String.list_ascii_of_string s).

(** [cleanupJob(jobId)]: the delayed-cleanup timer of the job, if any, is
    cleared and forgotten; then [fs.rm(jobDir, { recursive: true, force:
    true })] runs on [jobDir = path.join(this.uploadsDir, jobId)].  The file
    system is the set [paths] of the absolute paths that exist; a successful
    recursive [rm] removes [jobDir] and everything below it.  [rm] is the
    outcome of [fs.rm]: [None] when it succeeds, or the code of the error it
    throws.  [ENOENT] is swallowed, any other error is rethrown ([inl]); the
    timer map has been updated in every case. *)
Definition cleanupJob (cwd : list string) (jobId : string) (rm : option string)
    (paths : gset (list string)) (fm : FileManager)
    : (string + gset (list string)) * FileManager :=
  let jobDir := jobDirPath cwd (uploadsDir fm) jobId in
  let fm := if bool_decide (jobId ∈ cleanupTimers fm)
            then mkFileManager (uploadsDir fm) (cleanupTimers fm ∖ {[jobId]})
            else fm in
  match rm with
  | None => (inr (filter (fun q => ~ jobDir `prefix_of` q) paths), fm)
  | Some code =>
      if bool_decide (code = "ENOENT"%string) then (inr paths, fm) else (inl code, fm)
  end.

(** ** [FFmpegWrapper] ([src/services/FFmpegWrapper.ts]) *)

(** A stream of the [ffprobe] result, with the fields the wrapper reads;
    an absent field is [None].  Numbers are integers, as above. *)
Record ProbeStream := mkProbeStream {
  codec_type : string;
  codec_name : option string;
  sample_rate : option Z;
  stream_channels : option Z;
  bit_rate : option Z;
  sample_fmt : option string
}.

Record ProbeFormat := mkProbeFormat {
  format_duration : option Z;
  format_name : option string
}.

Record ProbeData := mkProbeData {
  streams : list ProbeStream;
  format : ProbeFormat
}.

(** The outcome of one [ffmpeg.ffprobe] call: [err.message], or the data. *)
Definition ProbeResult := (string + ProbeData)%type.

(** [metadata.streams.find(s => s.codec_type === ty)] *)
Definition find_stream (ty : string) (l : list ProbeStream) : option ProbeStream :=
  List.find (fun st => bool_decide (codec_type st = ty)) l.

(** [String.prototype.includes] *)
Fixpoint includes (s sub : string) : bool :=
  String.prefix sub s ||
  match s with
  | EmptyString => false
  | String _ s' => includes s' sub
  end.

Record VideoMetadata := mkVideoMetadata {
  hasAudio : bool;
  hasVideo : bool;
  videoDuration : Z;
  videoFormat : string;
  audioCodec : option string
}.

Definition getVideoMetadata (probe : ProbeResult) : string + VideoMetadata :=
  match probe with
  | inl msg => inl (String.append "Failed to extract metadata: " msg)
  | inr metadata =>
      let audioStream := find_stream "audio" (streams metadata) in
      let videoStream := find_stream "video" (streams metadata) in
      inr (mkVideoMetadata (bool_decide (is_Some audioStream))
             (bool_decide (is_Some videoStream))
             (or_number (format_duration (format metadata)) 0)
             (or_string (format_name (format metadata)) "unknown")
             (audioStream ≫= codec_name))
  end.

Definition validateVideoFile (probe : ProbeResult) : bool :=
  match getVideoMetadata probe with
  | inr metadata => hasVideo metadata
  | inl _ => false
  end.

(** The bit depth that [getAudioInfo] reads off [sample_fmt]. *)
Definition sampleFmtBitDepth (sampleFmt : option string) : Z :=
  match sampleFmt with
  | Some f =>
      if bool_decide (f = EmptyString) then 16
      else if includes f "s32" || includes f "flt" || includes f "dbl" then 32
      else if includes f "s24" then 24
      else if includes f "s16" then 16
      else 16
  | None => 16
  end%Z.

(** [getAudioInfo].  [bit_rate] is a number in the parsed [ffprobe] output,
    and [parseInt] of an integer gives it back, so the [bitrate] line is
    [bit_rate || 0]. *)
Definition getAudioInfo (probe : ProbeResult) : string + AudioMetadata :=
  match probe with
  | inl msg => inl (String.append "Failed to extract audio info: " msg)
  | inr metadata =>
      match find_stream "audio" (streams metadata) with
      | None => inl "No audio stream found"%string
      | Some audioStream =>
          inr (mkAudioMetadata
                 (or_number (sample_rate audioStream) 48000)
                 (sampleFmtBitDepth (sample_fmt audioStream))
                 (or_number (stream_channels audioStream) 2)
                 (or_number (format_duration (format metadata)) 0)
                 (or_string (codec_name audioStream) "unknown")
                 (or_number (bit_rate audioStream) 0))
      end
  end.

(** The PCM codec chosen in [extractAudio]. *)
Definition pcmCodecFor (bitDepth : Z) : string :=
  if bool_decide (bitDepth = 24%Z) then "pcm_s24le"
  else if bool_decide (bitDepth = 32%Z) then "pcm_s32le"
  else "pcm_s16le".

(** The events emitted by the [ffmpeg] command: [progress] (with
    [progress.percent], possibly undefined), [end], [error]. *)
Inductive FfmpegEvent :=
| FfProgress (percent : option Z)
| FfEnd
| FfError (message : string).

(** A promise settles once: later [resolve]/[reject] calls are ignored. *)
Definition settle {A} (settled : option A) (r : A) : option A :=
  match settled with Some _ => settled | None => Some r end.

(** The three listeners of the command, run on the events in order.  The
    result is the list of values passed to [onProgress] and the state of
    the promise ([None]: still pending). *)
Fixpoint runCommand (hasOnProgress : bool) (audioInfo : AudioMetadata)
    (evs : list FfmpegEvent) (settled : option (string + AudioMetadata))
    : list Z * option (string + AudioMetadata) :=
  match evs with
  | [] => ([], settled)
  | FfProgress percent :: evs' =>
      let here := match percent with
                  | Some p => if hasOnProgress && negb (bool_decide (p = 0%Z))
                              then [Z.min 100 (Z.max 0 p)] else []
                  | None => []
                  end in
      let '(calls, r) := runCommand hasOnProgress audioInfo evs' settled in
      (here ++ calls, r)
  | FfEnd :: evs' => runCommand hasOnProgress audioInfo evs' (settle settled (inr audioInfo))
  | FfError m :: evs' =>
      runCommand hasOnProgress audioInfo evs'
        (settle settled (inl (String.append "FFmpeg conversion failed: " m)))
  end.

(** What a call of [extractAudio] does: the values passed to [onProgress],
    the command started ([pcmCodec], [audioFrequency], [audioChannels]),
    if any, and the outcome of the promise. *)
Record ExtractRun := mkExtractRun {
  progressCalls : list Z;
  command : option (string * Z * Z);
  outcome : option (string + AudioMetadata)
}.

(** [extractAudio]; [probe1] and [probe2] are the outcomes of the two
    [ffprobe] calls (in [getVideoMetadata] and [getAudioInfo]), [evs] the
    events of the command. *)
Definition extractAudio (probe1 probe2 : ProbeResult) (hasOnProgress : bool)
    (evs : list FfmpegEvent) : ExtractRun :=
  match getVideoMetadata probe1 with
  | inl e => mkExtractRun [] None (Some (inl e))
  | inr videoMetadata =>
      if negb (hasAudio videoMetadata)
      then mkExtractRun [] None (Some (inl "Video file contains no audio stream"%string))
      else
        match getAudioInfo probe2 with
        | inl e => mkExtractRun [] None (Some (inl e))
        | inr audioInfo =>
            let pcmCodec := pcmCodecFor (bitDepth audioInfo) in
            let '(calls, r) := runCommand hasOnProgress audioInfo evs None in
            mkExtractRun calls (Some (pcmCodec, sampleRate audioInfo, channels audioInfo)) r
        end
  end.

(** The progress of job [jid] as read back (by [getJobStatus]) after each
    of the progress callbacks [ps], delivered in order. *)
Fixpoint observe_progress (s : ConversionService) (jid : nat) (ps : list Z) : list Z :=
  match ps with
  | [] => []
  | p :: ps' =>
      match step s (EvProgress jid p) with
      | None => []
      | Some s' =>
          match jobs s' !! jid with
          | Some j => progress j :: observe_progress s' jid ps'
          | None => []
          end
      end
  end.

(** ** Concrete runs *)

Definition sample_md : AudioMetadata :=
  mkAudioMetadata 48000 16 2 10 "pcm_s16le" 1536000.

Definition sample_upload : Event :=
  EvQueueJob "uploads/j0/input.mp4" "uploads/j0/clip.wav" "clip.mp4".

(** One slot, the default timeout of 30 minutes. *)
Definition service1 : ConversionService := newConversionService 1 1800000.

Definition run1 (es : list Event) : ConversionService :=
  match run service1 es with Some s => s | None => service1 end.

Definition job_after (es : list Event) (jid : nat) : option ConversionJob :=
  match run service1 es with Some s => jobs s !! jid | None => None end.

Definition dummy_job : ConversionJob :=
  mkJob 0 "" "" "" Queued 0 0 None None None.

Definition job_in (s : ConversionService) (jid : nat) : ConversionJob :=
  default dummy_job (jobs s !! jid).

Definition step1 (s : ConversionService) (e : Event) : ConversionService :=
  default s (step s e).

(** Job 0 running, jobs 1 and 2 queued. *)
Definition svc_three : ConversionService :=
  run1 [sample_upload; sample_upload; sample_upload].

(** Job 0 running, jobs 1, 2 and 3 queued. *)
Definition svc_four : ConversionService :=
  run1 [sample_upload; sample_upload; sample_upload; sample_upload].

(** Job 0 cancelled while its engine call is still pending. *)
Definition svc_cancelled : ConversionService := run1 [sample_upload; EvCancel 0].

Definition sweep_entries_sample : list Dirent :=
  [mkDirent "old" true; mkDirent "fresh" true; mkDirent "gone" true;
   mkDirent "notes.txt" false].

Definition sweep_dirs_sample : gmap string Z :=
  <["old" := 0%Z]> (<["fresh" := 500%Z]> ∅).

(** ** Helper lemmas on [processNextJob] *)

Lemma size_add_le (x : nat) (X : gset nat) : size ({[x]} ∪ X) <= S (size X).
Proof.
  rewrite size_union_alt, size_singleton.
  pose proof (subseteq_size (X ∖ {[x]}) X ltac:(set_solver)). lia.
Qed.

Lemma size_del_le (x : nat) (X : gset nat) : size (X ∖ {[x]}) <= size X.
Proof. apply subseteq_size. set_solver. Qed.

Lemma pnj_aux_consts f s :
  maxConcurrentJobs (processNextJob_aux f s) = maxConcurrentJobs s /\
  nextId (processNextJob_aux f s) = nextId s /\
  clock (processNextJob_aux f s) = clock s /\
  effects (processNextJob_aux f s) = effects s.
Proof.
  revert s; induction f as [|f IH]; intros s; simpl; [done|].
  case_bool_decide; [done|].
  destruct (queue s) as [|jid rest]; [done|].
  destruct (jobs s !! jid); simpl; [done|]. exact (IH (set_queue rest s)).
Qed.

Lemma pnj_aux_queue f s : exists k, queue (processNextJob_aux f s) = drop k (queue s).
Proof.
  revert s; induction f as [|f IH]; intros s; simpl; [by exists 0|].
  case_bool_decide; [by exists 0|].
  destruct (queue s) as [|jid rest] eqn:Hq; [by exists 0|].
  destruct (jobs s !! jid).
  - by exists 1.
  - destruct (IH (set_queue rest s)) as [k Hk]. exists (S k). rewrite Hk. done.
Qed.

Lemma pnj_aux_other f s x :
  ~ In x (queue s) -> jobs (processNextJob_aux f s) !! x = jobs s !! x.
Proof.
  revert s; induction f as [|f IH]; intros s Hx; simpl; [done|].
  case_bool_decide; [done|].
  destruct (queue s) as [|jid rest] eqn:Hq; [done|].
  destruct (jobs s !! jid) eqn:Hj.
  - simpl. rewrite lookup_insert_ne; [done|]. intros ->. apply Hx. by left.
  - rewrite IH; [done|]. simpl. intros Hin. apply Hx. by right.
Qed.

(** Admission is the only place that grows the processing set, and it
    checks the bound first. *)
Lemma pnj_aux_bound f s :
  (Z.of_nat (size (processing s)) <= Z.max 0 (maxConcurrentJobs s))%Z ->
  (Z.of_nat (size (processing (processNextJob_aux f s)))
     <= Z.max 0 (maxConcurrentJobs (processNextJob_aux f s)))%Z.
Proof.
  revert s; induction f as [|f IH]; intros s Hs; simpl; [done|].
  case_bool_decide as Hc; [done|].
  destruct (queue s) as [|jid rest]; [done|].
  destruct (jobs s !! jid); simpl.
  - pose proof (size_add_le jid (processing s)). lia.
  - exact (IH (set_queue rest s) Hs).
Qed.

Lemma pnj_consts c s :
  maxConcurrentJobs (processNextJob c s) = maxConcurrentJobs s /\
  nextId (processNextJob c s) = nextId s /\
  clock (processNextJob c s) = clock s.
Proof.
  unfold processNextJob. destruct (pnj_aux_consts (S (length (queue (log (ProcessNextJob c) s))))
    (log (ProcessNextJob c) s)) as (H1 & H2 & H3 & _). by rewrite H1, H2, H3.
Qed.

Lemma pnj_queue c s : exists k, queue (processNextJob c s) = drop k (queue s).
Proof. unfold processNextJob. exact (pnj_aux_queue _ (log (ProcessNextJob c) s)). Qed.

Lemma pnj_other c s x :
  ~ In x (queue s) -> jobs (processNextJob c s) !! x = jobs s !! x.
Proof. intros H. unfold processNextJob. exact (pnj_aux_other _ (log (ProcessNextJob c) s) x H). Qed.

Lemma pnj_bound c s :
  (Z.of_nat (size (processing s)) <= Z.max 0 (maxConcurrentJobs s))%Z ->
  (Z.of_nat (size (processing (processNextJob c s)))
     <= Z.max 0 (maxConcurrentJobs (processNextJob c s)))%Z.
Proof. intros H. unfold processNextJob. exact (pnj_aux_bound _ (log (ProcessNextJob c) s) H). Qed.

(** ** The invariant of reachable states *)

(** The queue holds queued jobs, in submission order; ids at or above
    [nextId] are unused; a job with an armed timer or a pending engine call
    has left [queued]; progress stays in [0, 100]; the processing set
    respects the bound. *)
Record inv (s : ConversionService) : Prop := {
  inv_sorted : StronglySorted lt (queue s);
  inv_queued : forall x, In x (queue s) ->
    exists j, jobs s !! x = Some j /\ status j = Queued;
  inv_fresh : forall x, (nextId s <= x)%nat -> jobs s !! x = None;
  inv_started : forall x, x ∈ timers s \/ x ∈ engines s ->
    exists j, jobs s !! x = Some j /\ status j <> Queued;
  inv_progress : forall x j, jobs s !! x = Some j -> (0 <= progress j <= 100)%Z;
  inv_bound : (Z.of_nat (size (processing s)) <= Z.max 0 (maxConcurrentJobs s))%Z
}.

Lemma inv_lt s x j : inv s -> jobs s !! x = Some j -> (x < nextId s)%nat.
Proof.
  intros Hi Hx. destruct (decide (x < nextId s)%nat); [done|].
  rewrite (inv_fresh s Hi x) in Hx by lia. discriminate.
Qed.

Lemma inv_not_queued s x j :
  inv s -> jobs s !! x = Some j -> status j <> Queued -> ~ In x (queue s).
Proof.
  intros Hi Hx Hst Hin. destruct (inv_queued s Hi x Hin) as (j' & Hj' & Hq).
  rewrite Hx in Hj'. injection Hj' as ->. done.
Qed.

Lemma inv_started_not_queued s x :
  inv s -> x ∈ timers s \/ x ∈ engines s -> ~ In x (queue s).
Proof.
  intros Hi Hx. destruct (inv_started s Hi x Hx) as (j & Hj & Hst).
  exact (inv_not_queued s x j Hi Hj Hst).
Qed.

Lemma StronglySorted_snoc (l : list nat) n :
  StronglySorted lt l -> (forall x, In x l -> x < n)%nat -> StronglySorted lt (l ++ [n]).
Proof.
  induction l as [|y l IH]; intros Hs Hlt; simpl.
  - repeat constructor.
  - apply StronglySorted_inv in Hs as [Hs Hy]. constructor.
    + apply IH; [done|]. intros x Hx. apply Hlt. by right.
    + apply Forall_app. split; [done|]. constructor; [|done]. apply Hlt. by left.
Qed.

Lemma StronglySorted_head_notin (x : nat) l :
  StronglySorted lt (x :: l) -> ~ In x l.
Proof.
  intros Hs Hin. apply StronglySorted_inv in Hs as [_ Hf].
  rewrite List.Forall_forall in Hf. specialize (Hf x Hin). lia.
Qed.

(** Updating a job that is not in the queue, to a status other than
    [Queued] and a progress in [0, 100], keeps the invariant. *)
Lemma inv_update_job s x j j' :
  inv s -> ~ In x (queue s) -> jobs s !! x = Some j -> status j' <> Queued ->
  (0 <= progress j' <= 100)%Z ->
  inv (set_jobs (<[x := j']> (jobs s)) s).
Proof.
  intros Hi Hnq Hx Hst Hp. pose proof (inv_lt s x j Hi Hx) as Hlt.
  destruct Hi as [Hs Hq Hf Ht Hpr Hb]. constructor; simpl; [done|..|done].
  - intros y Hy. rewrite lookup_insert_ne by (intros ->; contradiction). by apply Hq.
  - intros y Hy. rewrite lookup_insert_ne by lia. by apply Hf.
  - intros y Hy. rewrite lookup_insert. case_decide as Hxy; [by exists j'|]. by apply Ht.
  - intros y jy. rewrite lookup_insert. case_decide; [congruence|]. apply Hpr.
Qed.

Lemma inv_set_timers s t : inv s -> t ⊆ timers s -> inv (set_timers t s).
Proof.
  intros [Hs Hq Hf Ht Hpr Hb] Hsub. constructor; simpl; try done.
  intros y Hy. apply Ht. set_solver.
Qed.

Lemma inv_set_engines s e : inv s -> e ⊆ engines s -> inv (set_engines e s).
Proof.
  intros [Hs Hq Hf Ht Hpr Hb] Hsub. constructor; simpl; try done.
  intros y Hy. apply Ht. set_solver.
Qed.

Lemma inv_delete_processing s x : inv s -> inv (set_processing (processing s ∖ {[x]}) s).
Proof.
  intros [Hs Hq Hf Ht Hpr Hb]. constructor; simpl; try done.
  pose proof (size_del_le x (processing s)). lia.
Qed.

Lemma inv_log s e : inv s -> inv (log e s).
Proof. intros [Hs Hq Hf Ht Hpr Hb]. by constructor. Qed.

Lemma inv_pnj_aux f s : inv s -> inv (processNextJob_aux f s).
Proof.
  revert s; induction f as [|f IH]; intros s Hi; simpl; [done|].
  case_bool_decide as Hc; [done|].
  destruct (queue s) as [|jid rest] eqn:Hqs; [done|].
  destruct (jobs s !! jid) as [job|] eqn:Hj.
  - pose proof (inv_lt s jid job Hi Hj) as Hlt.
    destruct Hi as [Hs Hq Hf Ht Hpr Hb]. rewrite Hqs in Hs, Hq.
    pose proof (StronglySorted_head_notin _ _ Hs) as Hnin.
    constructor; simpl.
    + by apply StronglySorted_inv in Hs as [? _].
    + intros y Hy. rewrite lookup_insert_ne by (intros ->; contradiction).
      apply Hq. by right.
    + intros y Hy. rewrite lookup_insert_ne by lia. by apply Hf.
    + intros y Hy. rewrite lookup_insert. case_decide as Hxy.
      * eexists; split; [done|]. simpl. discriminate.
      * apply Ht. set_solver.
    + intros y jy. rewrite lookup_insert. case_decide.
      * intros Hjy. injection Hjy as <-. simpl. lia.
      * apply Hpr.
    + pose proof (size_add_le jid (processing s)). lia.
  - apply (IH (set_queue rest s)). destruct Hi as [Hs Hq Hf Ht Hpr Hb].
    rewrite Hqs in Hs, Hq. constructor; simpl; try done.
    + by apply StronglySorted_inv in Hs as [? _].
    + intros y Hy. apply Hq. by right.
Qed.

Lemma inv_pnj c s : inv s -> inv (processNextJob c s).
Proof. intros Hi. unfold processNextJob. apply inv_pnj_aux. by apply inv_log. Qed.

Lemma inv_queueJob i o f s : inv s -> inv (snd (queueJob i o f s)).
Proof.
  intros Hi. unfold queueJob; simpl. apply inv_pnj.
  pose proof (fun x j => inv_lt s x j Hi) as Hlt.
  destruct Hi as [Hs Hq Hf Ht Hpr Hb]. constructor; simpl.
  - apply StronglySorted_snoc; [done|].
    intros x Hx. destruct (Hq x Hx) as (j & Hj & _). exact (Hlt x j Hj).
  - intros x Hx. apply in_app_or in Hx as [Hx|[<-|[]]].
    + destruct (Hq x Hx) as (j & Hj & Hst).
      rewrite lookup_insert_ne by (pose proof (Hlt x j Hj); lia). by exists j.
    + rewrite lookup_insert_eq. by eexists.
  - intros x Hx. rewrite lookup_insert_ne by lia. apply Hf. lia.
  - intros x Hx. destruct (Ht x Hx) as (j & Hj & Hst).
    rewrite lookup_insert_ne by (pose proof (Hlt x j Hj); lia). by exists j.
  - intros x j. rewrite lookup_insert. case_decide.
    + intros Hj. injection Hj as <-. simpl. lia.
    + apply Hpr.
  - done.
Qed.

Lemma splice_first_In x y l : In y (splice_first x l) -> In y l.
Proof.
  induction l as [|z l IH]; simpl; [done|].
  case_decide; [intros Hy; by right|]. intros [->|Hy]; [by left|right; by apply IH].
Qed.

Lemma splice_first_sorted x l :
  StronglySorted lt l -> StronglySorted lt (splice_first x l).
Proof.
  induction l as [|z l IH]; intros Hs; simpl; [done|].
  apply StronglySorted_inv in Hs as [Hs Hz].
  case_decide; [done|]. constructor; [by apply IH|].
  rewrite List.Forall_forall in Hz |- *. intros y Hy. apply Hz.
  by apply splice_first_In in Hy.
Qed.

Lemma splice_first_removes x l : StronglySorted lt l -> ~ In x (splice_first x l).
Proof.
  induction l as [|z l IH]; intros Hs; simpl; [tauto|].
  case_decide as Hxz.
  - subst. by apply StronglySorted_head_notin.
  - apply StronglySorted_inv in Hs as [Hs _]. intros [->|Hin]; [done|].
    by apply (IH Hs).
Qed.

Lemma inv_cancelJob jid s : inv s -> inv (snd (cancelJob jid s)).
Proof.
  intros Hi. unfold cancelJob.
  destruct (jobs s !! jid) as [job|] eqn:Hj; [|done].
  case_bool_decide as Hc; [done|]. simpl. apply inv_log.
  destruct (decide (status job = Queued)) as [Hq|Hq].
  - rewrite decide_False by congruence.
    set (s1 := set_queue (splice_first jid (queue s)) s).
    assert (Hi1 : inv s1).
    { destruct Hi as [Hs Hqd Hf Ht Hpr Hb]. constructor; simpl; try done.
      - by apply splice_first_sorted.
      - intros y Hy. apply Hqd. by apply splice_first_In in Hy. }
    apply (inv_update_job s1 jid job); [done| |done|simpl; congruence|].
    + apply splice_first_removes. apply Hi.
    + simpl. exact (inv_progress s Hi jid job Hj).
  - rewrite decide_True by (destruct (status job); naive_solver).
    apply (inv_update_job _ jid job).
    + by apply inv_log, inv_delete_processing.
    + simpl. exact (inv_not_queued s jid job Hi Hj Hq).
    + done.
    + simpl. congruence.
    + simpl. exact (inv_progress s Hi jid job Hj).
Qed.

Lemma onProgress_status p j : status (onProgress p j) = status j.
Proof. unfold onProgress. by case_bool_decide. Qed.

Lemma onProgress_bounds p j :
  (0 <= progress j <= 100)%Z -> (0 <= progress (onProgress p j) <= 100)%Z.
Proof. unfold onProgress. case_bool_decide; simpl; lia. Qed.

Lemma inv_progress_step jid p s :
  inv s -> inv (set_jobs (alter (onProgress p) jid (jobs s)) s).
Proof.
  intros [Hs Hq Hf Ht Hpr Hb]. constructor; simpl; try done.
  - intros y Hy. rewrite lookup_alter. destruct (Hq y Hy) as (j & Hj & Hst).
    case_decide; [subst jid|]; rewrite Hj; simpl; [|by exists j].
    exists (onProgress p j). split; [done|by rewrite onProgress_status].
  - intros y Hy. rewrite lookup_alter. case_decide; [subst jid|];
      by rewrite Hf.
  - intros y Hy. rewrite lookup_alter. destruct (Ht y Hy) as (j & Hj & Hst).
    case_decide; [subst jid|]; rewrite Hj; simpl; [|by exists j].
    exists (onProgress p j). split; [done|by rewrite onProgress_status].
  - intros y j. rewrite lookup_alter. case_decide; [subst jid|].
    + destruct (jobs s !! y) as [j0|] eqn:Hj0; [|done]. simpl.
      intros Hj. injection Hj as <-. apply onProgress_bounds. by apply (Hpr y).
    + apply Hpr.
Qed.

Lemma inv_clearTimeout jid s : inv s -> inv (clearTimeout jid s).
Proof. intros Hi. apply inv_log, inv_set_timers; [done|set_solver]. Qed.

Lemma inv_finallyBlock jid s : inv s -> inv (finallyBlock jid s).
Proof. intros Hi. apply inv_pnj, inv_log, inv_delete_processing, Hi. Qed.

Lemma inv_onTimeout jid s : inv s -> jid ∈ timers s -> inv (onTimeout jid s).
Proof.
  intros Hi Hin. pose proof (inv_started_not_queued s jid Hi (or_introl Hin)) as Hnq.
  unfold onTimeout. apply inv_pnj, inv_log, inv_delete_processing.
  assert (Hi1 : inv (set_timers (timers s ∖ {[jid]}) s))
    by (apply inv_set_timers; [done|set_solver]).
  change (jobs (set_timers (timers s ∖ {[jid]}) s)) with (jobs s).
  destruct (jobs s !! jid) as [job|] eqn:Hj; [|done].
  apply (inv_update_job (set_timers (timers s ∖ {[jid]}) s) jid job);
    [exact Hi1|exact Hnq|exact Hj|simpl; congruence|exact (inv_progress s Hi jid job Hj)].
Qed.

Lemma inv_onEngineResolve jid md s : inv s -> jid ∈ engines s -> inv (onEngineResolve jid md s).
Proof.
  intros Hi Hin. pose proof (inv_started_not_queued s jid Hi (or_intror Hin)) as Hnq.
  unfold onEngineResolve. apply inv_finallyBlock.
  assert (Hi1 : inv (set_engines (engines s ∖ {[jid]}) s))
    by (apply inv_set_engines; [done|set_solver]).
  change (jobs (set_engines (engines s ∖ {[jid]}) s)) with (jobs s).
  destruct (jobs s !! jid) as [job|] eqn:Hj; [|done].
  case_decide; apply inv_clearTimeout; [done|].
  apply (inv_update_job (set_engines (engines s ∖ {[jid]}) s) jid job);
    [exact Hi1|exact Hnq|exact Hj|simpl; congruence|simpl; lia].
Qed.

Lemma inv_onEngineReject jid err s : inv s -> jid ∈ engines s -> inv (onEngineReject jid err s).
Proof.
  intros Hi Hin. pose proof (inv_started_not_queued s jid Hi (or_intror Hin)) as Hnq.
  unfold onEngineReject. apply inv_finallyBlock.
  assert (Hi1 : inv (clearTimeout jid (set_engines (engines s ∖ {[jid]}) s))).
  { apply inv_clearTimeout, inv_set_engines; [done|set_solver]. }
  change (jobs (clearTimeout jid (set_engines (engines s ∖ {[jid]}) s))) with (jobs s).
  destruct (jobs s !! jid) as [job|] eqn:Hj; [|done].
  apply (inv_update_job (clearTimeout jid (set_engines (engines s ∖ {[jid]}) s)) jid job);
    [exact Hi1|exact Hnq|exact Hj|simpl; congruence|exact (inv_progress s Hi jid job Hj)].
Qed.

Lemma inv_step s e s' : inv s -> step s e = Some s' -> inv s'.
Proof.
  intros Hi Hs. destruct e; simpl in Hs.
  - injection Hs as <-. by apply inv_queueJob.
  - injection Hs as <-. by apply inv_cancelJob.
  - case_bool_decide; [|done]. injection Hs as <-. by apply inv_progress_step.
  - case_bool_decide; [|done]. injection Hs as <-. by apply inv_onEngineResolve.
  - case_bool_decide; [|done]. injection Hs as <-. by apply inv_onEngineReject.
  - case_bool_decide; [|done]. injection Hs as <-. by apply inv_onTimeout.
  - injection Hs as <-. destruct Hi as [Hs Hq Hf Ht Hpr Hb]. by constructor.
Qed.

Lemma reachable_inv s : reachable s -> inv s.
Proof.
  induction 1 as [c t|s s' e _ IH Hs].
  - constructor; simpl; try done.
    + constructor.
    + intros x [Hx|Hx]; set_solver.
    + change (Z.of_nat (size (∅ : gset nat)) <= Z.max 0 c)%Z.
      rewrite size_empty. lia.
  - by apply (inv_step s e s').
Qed.

Lemma run_reachable s es s' : reachable s -> run s es = Some s' -> reachable s'.
Proof.
  revert s; induction es as [|e es IH]; intros s Hr Hrun; simpl in Hrun.
  - by injection Hrun as <-.
  - destruct (step s e) as [s1|] eqn:Hs; [|done].
    apply (IH s1); [|done]. by apply (reach_step s s1 e).
Qed.

Lemma In_drop_In (x : nat) k l : In x (drop k l) -> In x l.
Proof.
  revert k; induction l as [|y l IH]; intros [|k]; simpl; try tauto.
  intros H. right. exact (IH k H).
Qed.

(** In a strictly sorted list, dropping a prefix that contains [B] also
    drops every element smaller than [B]. *)
Lemma drop_sorted_before (l : list nat) k A B :
  StronglySorted lt l -> In A l -> In B l -> (A < B)%nat ->
  ~ In B (drop k l) -> ~ In A (drop k l).
Proof.
  revert k; induction l as [|y l IH]; intros k Hs HA HB Hlt HnB; [done|].
  destruct k as [|k]; [done|]. simpl in *.
  pose proof Hs as Hs'. apply StronglySorted_inv in Hs' as [Hs' Hy].
  rewrite List.Forall_forall in Hy.
  destruct HA as [->|HA].
  - intros HA'. apply (StronglySorted_head_notin A l Hs).
    by apply (In_drop_In A k).
  - destruct HB as [->|HB]; [specialize (Hy A HA); lia|].
    by apply (IH k).
Qed.

Ltac pnj_queue_tac :=
  match goal with
  | |- context [processNextJob ?c ?t] =>
      let k := fresh "k" in let Hk := fresh "Hk" in
      destruct (pnj_queue c t) as [k Hk]; exists k; rewrite Hk; f_equal
  end.

Lemma onTimeout_queue jid s : exists k, queue (onTimeout jid s) = drop k (queue s).
Proof. unfold onTimeout. pnj_queue_tac. simpl. destruct (jobs s !! jid); reflexivity. Qed.

Lemma onEngineResolve_queue jid md s :
  exists k, queue (onEngineResolve jid md s) = drop k (queue s).
Proof. unfold onEngineResolve, finallyBlock. pnj_queue_tac. simpl.
  destruct (jobs s !! jid); [case_decide|]; reflexivity. Qed.

Lemma onEngineReject_queue jid err s :
  exists k, queue (onEngineReject jid err s) = drop k (queue s).
Proof. unfold onEngineReject, finallyBlock. pnj_queue_tac. simpl.
  destruct (jobs s !! jid); reflexivity. Qed.

Lemma cancelJob_queue jid s :
  queue (snd (cancelJob jid s)) = queue s \/
  (queue (snd (cancelJob jid s)) = splice_first jid (queue s) /\
   job_status jid (snd (cancelJob jid s)) = Some Cancelled).
Proof.
  unfold cancelJob, job_status. destruct (jobs s !! jid) as [job|]; [|by left].
  case_bool_decide; [by left|]. simpl.
  destruct (decide (status job = Queued)) as [Hq|Hq].
  - right. rewrite decide_False by congruence. simpl.
    split; [done|]. by rewrite lookup_insert_eq.
  - left. rewrite decide_True by (destruct (status job); naive_solver). done.
Qed.

Lemma splice_first_keeps x y l : y <> x -> In y l -> In y (splice_first x l).
Proof.
  induction l as [|z l IH]; intros Hne Hin; simpl; [done|].
  case_decide as Hxz.
  - subst z. destruct Hin as [Hxy|Hin]; [congruence|done].
  - destruct Hin as [->|Hin]; [by left|right; by apply IH].
Qed.

(** ** Claims about the scheduler *)

Lemma fifo_step s e s' A B :
  reachable s -> step s e = Some s' ->
  In A (queue s) -> In B (queue s) -> (A < B)%nat ->
  ~ In B (queue s') -> job_status B s' = Some Processing ->
  ~ In A (queue s').
Proof.
  intros Hr Hs HA HB Hlt HnB HstB.
  pose proof (reachable_inv s Hr) as Hi.
  pose proof (inv_sorted s Hi) as Hsort.
  assert (Hdrop : forall k, queue s' = drop k (queue s) -> ~ In A (queue s')).
  { intros k Hk. rewrite Hk in HnB |- *. by apply (drop_sorted_before _ k A B). }
  destruct e; simpl in Hs.
  + injection Hs as <-. unfold queueJob in *. simpl in *.
    match goal with
    | |- context [processNextJob ?c ?t] => destruct (pnj_queue c t) as [k Hk]
    end.
    simpl in Hk. rewrite Hk in HnB |- *.
    apply (drop_sorted_before (queue s ++ [nextId s]) k A B); try done.
    * apply StronglySorted_snoc; [done|]. intros x Hx.
      destruct (inv_queued s Hi x Hx) as (j & Hj & _). exact (inv_lt s x j Hi Hj).
    * apply in_or_app. by left.
    * apply in_or_app. by left.
  + injection Hs as <-.
    destruct (cancelJob_queue jid s) as [Hq|[Hq Hst]]; rewrite Hq in HnB.
    * contradiction.
    * destruct (decide (B = jid)) as [->|Hne]; [congruence|].
      exfalso. apply HnB. by apply splice_first_keeps.
  + case_bool_decide; [|done]. injection Hs as <-. contradiction.
  + case_bool_decide; [|done]. injection Hs as <-.
    destruct (onEngineResolve_queue jid md s) as [k Hk]. by apply (Hdrop k).
  + case_bool_decide; [|done]. injection Hs as <-.
    destruct (onEngineReject_queue jid err s) as [k Hk]. by apply (Hdrop k).
  + case_bool_decide; [|done]. injection Hs as <-.
    destruct (onTimeout_queue jid s) as [k Hk]. by apply (Hdrop k).
  + injection Hs as <-. contradiction.
Qed.

(** C7 (FIFO admission).  Job ids are handed out in submission order, so
    [A < B] means that [A] was submitted before [B].  When [A] and [B] are
    both queued, no step admits [B] (takes it out of the queue into
    [Processing]) while [A] stays in the queue: [A] is admitted no later
    than [B].  And [processNextJob] pops the head of the queue; a popped id
    without a record is skipped and the next head is tried, without taking
    a slot. *)
Theorem fifo_admission :
  (forall s e s' A B,
     reachable s -> step s e = Some s' ->
     In A (queue s) -> In B (queue s) -> (A < B)%nat ->
     In A (queue s') ->
     ~ (~ In B (queue s') /\ job_status B s' = Some Processing)) /\
  (forall fuel s jid rest,
     ~ (maxConcurrentJobs s <= Z.of_nat (size (processing s)))%Z ->
     queue s = jid :: rest -> jobs s !! jid = None ->
     processNextJob_aux (S fuel) s = processNextJob_aux fuel (set_queue rest s)).
Proof.
  split.
  - intros s e s' A B Hr Hs HA HB Hlt HA' [HnB HstB].
    exact (fifo_step s e s' A B Hr Hs HA HB Hlt HnB HstB HA').
  - intros fuel s jid rest Hc Hq Hj. simpl.
    rewrite bool_decide_false by done. rewrite Hq. simpl. by rewrite Hj.
Qed.


(** C3 (cancellation wins over a late engine success).  When the engine
    resolves for a job whose status is [Cancelled], the job record is left
    exactly as it was: status [Cancelled], progress not forced to 100, no
    metadata attached, [completedAt] not overwritten. *)
Theorem cancelled_job_ignores_success s jid md j s' :
  reachable s -> jobs s !! jid = Some j -> status j = Cancelled ->
  step s (EvEngineResolve jid md) = Some s' ->
  jobs s' !! jid = Some j.
Proof.
  intros Hr Hj Hst Hs. simpl in Hs. case_bool_decide; [|done]. injection Hs as <-.
  pose proof (inv_not_queued s jid j (reachable_inv s Hr) Hj ltac:(congruence)) as Hnq.
  unfold onEngineResolve, finallyBlock.
  change (jobs (set_engines (engines s ∖ {[jid]}) s)) with (jobs s).
  rewrite Hj, decide_True by done.
  rewrite pnj_other; [exact Hj|exact Hnq].
Qed.

(** C4 ([cancelJob]).  It returns [true] exactly when the job exists and
    is [Queued] or [Processing].  Then the job becomes [Cancelled] with
    [completedAt] set, it is no longer in the queue (a queued job is
    spliced out of it), a processing job leaves the processing set, and
    the cleanup of its files is started.  Otherwise nothing changes. *)
Theorem cancelJob_spec s jid b s' :
  reachable s -> cancelJob jid s = (b, s') ->
  (b = true <-> exists j, jobs s !! jid = Some j /\
                          (status j = Queued \/ status j = Processing)) /\
  (b = true -> exists j, jobs s !! jid = Some j /\
      jobs s' !! jid = Some (set_completedAt (Some (clock s)) (set_status Cancelled j)) /\
      ~ In jid (queue s') /\
      (status j = Queued -> queue s' = splice_first jid (queue s)) /\
      (status j = Processing -> processing s' = processing s ∖ {[jid]}) /\
      In (CleanupJob jid) (effects s')) /\
  (b = false -> s' = s).
Proof.
  intros Hr Hc. pose proof (reachable_inv s Hr) as Hi. unfold cancelJob in Hc.
  destruct (jobs s !! jid) as [job|] eqn:Hj.
  2:{ injection Hc as <- <-. split; [|split]; [|done|done].
      split; [done|]. intros (j & Hj' & _). discriminate. }
  case_bool_decide as Hst.
  { injection Hc as <- <-. split; [|split]; [|done|done].
    split; [done|]. intros (j & Hj' & Hq). injection Hj' as <-. tauto. }
  injection Hc as <- <-. split; [|split]; [|intros _|done].
  { split; [intros _|done]. exists job. split; [done|].
    destruct (status job); try tauto; exfalso; apply Hst; split; discriminate. }
  exists job. split; [done|].
  destruct (decide (status job = Queued)) as [Hq|Hq].
  - rewrite decide_False by congruence. simpl.
    split; [by rewrite lookup_insert_eq|].
    split; [apply splice_first_removes, (inv_sorted s Hi)|].
    split; [done|]. split; [congruence|].
    apply in_or_app. right. by left.
  - rewrite decide_True by (destruct (status job); try done;
      exfalso; apply Hst; split; discriminate). simpl.
    split; [by rewrite lookup_insert_eq|].
    split; [exact (inv_not_queued s jid job Hi Hj Hq)|].
    split; [done|]. split; [done|].
    apply in_or_app. right. by left.
Qed.

Lemma onProgress_mono p j : (progress j <= progress (onProgress p j))%Z \/ (100 < progress j)%Z.
Proof. unfold onProgress. case_bool_decide; simpl; lia. Qed.

Lemma observe_progress_sorted ps s jid j :
  reachable s -> jobs s !! jid = Some j ->
  Sorted Z.le (progress j :: observe_progress s jid ps) /\
  Forall (fun v => 0 <= v <= 100)%Z (progress j :: observe_progress s jid ps).
Proof.
  revert s j; induction ps as [|p ps IH]; intros s j Hr Hj;
    pose proof (inv_progress s (reachable_inv s Hr) jid j Hj) as Hb;
    cbn [observe_progress].
  - split; [repeat constructor|constructor; [lia|constructor]].
  - destruct (step s (EvProgress jid p)) as [s1|] eqn:Hs.
    2:{ split; [repeat constructor|constructor; [lia|constructor]]. }
    pose proof (reach_step s s1 _ Hr Hs) as Hr1.
    simpl in Hs. case_bool_decide; [|done]. injection Hs as <-.
    simpl. rewrite lookup_alter_eq, Hj. simpl.
    destruct (IH _ (onProgress p j) Hr1) as [Hsort Hall].
    { simpl. by rewrite lookup_alter_eq, Hj. }
    split.
    + constructor; [exact Hsort|]. constructor.
      destruct (onProgress_mono p j); lia.
    + constructor; [lia|exact Hall].
Qed.

(** C5 (monotone progress).  A progress callback changes the stored
    progress only when the reported value is strictly greater, and then
    stores it clamped to 100; for every sequence of callbacks on a job of a
    reachable state, the progress read back after each one is
    non-decreasing and stays within [0, 100]. *)
Theorem progress_monotone s jid j ps :
  reachable s -> jobs s !! jid = Some j ->
  (forall p, (p <= progress j)%Z -> onProgress p j = j) /\
  (forall p, (progress j < p)%Z -> onProgress p j = set_progress (Z.min 100 p) j) /\
  Sorted Z.le (progress j :: observe_progress s jid ps) /\
  Forall (fun v => 0 <= v <= 100)%Z (progress j :: observe_progress s jid ps).
Proof.
  intros Hr Hj. split; [|split].
  - intros p Hp. unfold onProgress. rewrite bool_decide_false by lia. done.
  - intros p Hp. unfold onProgress. by rewrite bool_decide_true.
  - exact (observe_progress_sorted ps s jid j Hr Hj).
Qed.

(** C6 (bounded concurrency).  With a bound [maxConcurrentJobs >= 0] the
    processing set of a reachable state never has more members than the
    bound, and [processNextJob] admits nothing when the set is full. *)
Theorem processing_within_bound s :
  reachable s -> (0 <= maxConcurrentJobs s)%Z ->
  (Z.of_nat (size (processing s)) <= maxConcurrentJobs s)%Z /\
  (forall c, (maxConcurrentJobs s <= Z.of_nat (size (processing s)))%Z ->
     processNextJob c s = log (ProcessNextJob c) s).
Proof.
  intros Hr HC. split.
  - pose proof (inv_bound s (reachable_inv s Hr)). lia.
  - intros c Hfull. unfold processNextJob. cbn [processNextJob_aux].
    rewrite bool_decide_true; [done|exact Hfull].
Qed.

(** C10 (progress callbacks do not look at the status).  Whenever the
    engine reports a value above the stored progress, the stored progress
    becomes that value clamped to 100, whatever the job's status, also
    [Cancelled], [Failed] or [Completed]; nothing else in the record
    changes. *)
Theorem progress_callback_ignores_status s jid j p s' :
  jobs s !! jid = Some j -> step s (EvProgress jid p) = Some s' ->
  (progress j < p)%Z ->
  jobs s' !! jid = Some (set_progress (Z.min 100 p) j).
Proof.
  intros Hj Hs Hp. simpl in Hs. case_bool_decide; [|done]. injection Hs as <-.
  simpl. rewrite lookup_alter_eq, Hj. simpl. unfold onProgress.
  by rewrite bool_decide_true.
Qed.

Lemma run1_reachable es : run service1 es = Some (run1 es) -> reachable (run1 es).
Proof. intros H. apply (run_reachable service1 es); [apply reach_init|exact H]. Qed.

(** C1 (terminal status is not final).  The watchdog fires and marks job 0
    [Failed] at time 0; the engine then succeeds at time 1 and the job
    becomes [Completed] with a new [completedAt].  A cancelled job is also
    overwritten: the timer, still armed after [cancelJob], marks it
    [Failed], and so does a late engine failure. *)
Theorem timeout_then_success_overwrites :
  status <$> job_after [sample_upload; EvTimeout 0] 0 = Some Failed /\
  completedAt <$> job_after [sample_upload; EvTimeout 0] 0 = Some (Some 0%Z) /\
  status <$> job_after [sample_upload; EvTimeout 0; EvTick; EvEngineResolve 0 sample_md] 0
    = Some Completed /\
  completedAt <$> job_after [sample_upload; EvTimeout 0; EvTick; EvEngineResolve 0 sample_md] 0
    = Some (Some 1%Z) /\
  status <$> job_after [sample_upload; EvCancel 0; EvTimeout 0] 0 = Some Failed /\
  status <$> job_after [sample_upload; EvCancel 0; EvEngineReject 0 None] 0 = Some Failed.
Proof. vm_compute. repeat split. Qed.

(** C2 (duplicate release and admission).  When the watchdog fires and the
    engine resolves afterwards, job 0 is deleted from the processing set
    twice and [processNextJob] is called twice on its behalf.  After a
    cancellation of a running job, [cancelJob] and the later [finally]
    block both delete it from the processing set. *)
Theorem timeout_then_success_double_release :
  (fun s => (count_effect (ProcessingDelete 0) (effects s),
             count_effect (ProcessNextJob (Some 0)) (effects s)))
    <$> run service1 [sample_upload; EvTimeout 0; EvEngineResolve 0 sample_md]
    = Some (2, 2) /\
  (fun s => count_effect (ProcessingDelete 0) (effects s))
    <$> run service1 [sample_upload; EvCancel 0; EvEngineResolve 0 sample_md]
    = Some 2.
Proof. vm_compute. split; reflexivity. Qed.

(** C8 (error on a non-failed job).  After the watchdog timeout and a late
    engine success, job 0 is [Completed] and still carries the timeout
    error. *)
Theorem completed_job_with_error :
  (fun j => (status j, error j))
    <$> job_after [sample_upload; EvTimeout 0; EvTick; EvEngineResolve 0 sample_md] 0
    = Some (Completed, Some "Conversion timeout exceeded"%string).
Proof. vm_compute. reflexivity. Qed.

(** ** Claims about [cleanupOldFiles] *)




(** C9 (age sweep).  The per-entry [catch] of [cleanupOldFiles] swallows
    every error, not only that of a directory which has vanished: when
    [fs.rm] fails (here with [EACCES]) on the directory ["old"], which is
    strictly older than [maxAgeMs], the sweep returns normally with count
    0, the directory is still there and its delayed-cleanup timer is kept. *)
Theorem cleanupOldFiles_swallows_rm_error :
  is_old 1000 500 sweep_dirs_sample (mkDirent "old" true) = true /\
  cleanupOldFiles 500 1000 (ReaddirOk sweep_entries_sample) (fun _ => None)
    (fun n => if bool_decide (n = "old"%string) then Some "EACCES"%string else None)
    sweep_dirs_sample (mkFileManager "uploads" {["old"; "fresh"]})
  = inr (0%Z, sweep_dirs_sample, mkFileManager "uploads" {["old"; "fresh"]}).
Proof. split; vm_compute; reflexivity. Qed.


(** ** More of the scheduler: helper lemmas *)

Lemma queueJob_unfold i o f s :
  queueJob i o f s = (nextId s, processNextJob None (enqueue i o f s)).
Proof. reflexivity. Qed.

(** [processNextJob] only adds ids taken from the queue to the sets. *)
Lemma pnj_aux_sets f s x :
  (x ∈ processing (processNextJob_aux f s) -> x ∈ processing s \/ In x (queue s)) /\
  (x ∈ timers (processNextJob_aux f s) -> x ∈ timers s \/ In x (queue s)) /\
  (x ∈ engines (processNextJob_aux f s) -> x ∈ engines s \/ In x (queue s)).
Proof.
  revert s; induction f as [|f IH]; intros s; simpl; [tauto|].
  case_bool_decide as Hc; [tauto|].
  destruct (queue s) as [|jid rest] eqn:Hq; [tauto|].
  destruct (jobs s !! jid) as [job|].
  - simpl. split; [|split]; intros H; apply elem_of_union in H as [H|H];
      try (apply elem_of_singleton in H; subst x; right; by left); by left.
  - destruct (IH (set_queue rest s)) as (H1 & H2 & H3). simpl in H1, H2, H3.
    split; [|split]; intros H;
      [destruct (H1 H)|destruct (H2 H)|destruct (H3 H)]; auto; right; by right.
Qed.

Lemma pnj_aux_mono f s :
  processing s ⊆ processing (processNextJob_aux f s) /\
  timers s ⊆ timers (processNextJob_aux f s) /\
  engines s ⊆ engines (processNextJob_aux f s).
Proof.
  revert s; induction f as [|f IH]; intros s; simpl; [done|].
  case_bool_decide; [done|].
  destruct (queue s) as [|jid rest]; [done|].
  destruct (jobs s !! jid) as [job|].
  - simpl. split; [|split]; set_solver.
  - exact (IH (set_queue rest s)).
Qed.

(** A record after [processNextJob] is the one before, or it has been
    admitted. *)
Lemma pnj_aux_lookup f s x :
  jobs (processNextJob_aux f s) !! x = jobs s !! x \/
  exists j, jobs s !! x = Some j /\
    jobs (processNextJob_aux f s) !! x = Some (set_progress 0 (set_status Processing j)).
Proof.
  revert s; induction f as [|f IH]; intros s; simpl; [by left|].
  case_bool_decide; [by left|].
  destruct (queue s) as [|jid rest]; [by left|].
  destruct (jobs s !! jid) as [job|] eqn:Hj.
  - simpl. rewrite lookup_insert. case_decide as Hx; [|by left].
    subst x. right. exists job. split; done.
  - exact (IH (set_queue rest s)).
Qed.

Lemma pnj_sets c s x :
  (x ∈ processing (processNextJob c s) -> x ∈ processing s \/ In x (queue s)) /\
  (x ∈ timers (processNextJob c s) -> x ∈ timers s \/ In x (queue s)) /\
  (x ∈ engines (processNextJob c s) -> x ∈ engines s \/ In x (queue s)).
Proof. unfold processNextJob. exact (pnj_aux_sets _ (log (ProcessNextJob c) s) x). Qed.

Lemma pnj_mono c s :
  processing s ⊆ processing (processNextJob c s) /\
  timers s ⊆ timers (processNextJob c s) /\
  engines s ⊆ engines (processNextJob c s).
Proof. unfold processNextJob. exact (pnj_aux_mono _ (log (ProcessNextJob c) s)). Qed.

Lemma pnj_lookup c s x :
  jobs (processNextJob c s) !! x = jobs s !! x \/
  exists j, jobs s !! x = Some j /\
    jobs (processNextJob c s) !! x = Some (set_progress 0 (set_status Processing j)).
Proof. unfold processNextJob. exact (pnj_aux_lookup _ (log (ProcessNextJob c) s) x). Qed.

Lemma StronglySorted_NoDup (l : list nat) : StronglySorted lt l -> NoDup l.
Proof.
  induction l as [|x l IH]; intros Hs; [constructor|].
  pose proof (StronglySorted_head_notin x l Hs) as Hn.
  apply StronglySorted_inv in Hs as [Hs _]. constructor; [|by apply IH].
  rewrite list_elem_of_In. exact Hn.
Qed.

(** Two duplicate-free lists with the same members have the same length. *)
Lemma length_same_members (l l' : list nat) :
  NoDup l -> NoDup l' -> (forall x, x ∈ l <-> x ∈ l') -> length l = length l'.
Proof. intros H1 H2 H. apply Permutation_length, NoDup_Permutation; done. Qed.

Lemma count_effect_app x l1 l2 :
  count_effect x (l1 ++ l2) = (count_effect x l1 + count_effect x l2)%nat.
Proof. unfold count_effect. by rewrite filter_app, length_app. Qed.

Lemma count_effect_other x y : x <> y -> count_effect x [y] = 0%nat.
Proof. intros H. unfold count_effect. rewrite filter_cons_False; [done|congruence]. Qed.

(** ** A second invariant: the registry agrees with the queue, the
    processing set and the timers *)

(** The fields of a record agree with its status: [completedAt] is set
    exactly when the job has left [queued] and [processing]; a failed job
    carries an error; a completed job has progress 100 and metadata. *)
Definition job_ok (j : ConversionJob) : Prop :=
  (completedAt j = None <-> status j = Queued \/ status j = Processing) /\
  (status j = Failed -> is_Some (error j)) /\
  (status j = Completed -> progress j = 100%Z /\ is_Some (metadata j)).

(** Every id below [nextId] has a record, stored under its own id; the
    processing set holds exactly the [processing] jobs, the queue exactly
    the [queued] ones; an armed watchdog means a pending engine call; every
    record is [job_ok]. *)
Record inv2 (s : ConversionService) : Prop := {
  inv2_dom : forall k, (k < nextId s)%nat -> is_Some (jobs s !! k);
  inv2_ids : forall k j, jobs s !! k = Some j -> jobId j = k;
  inv2_processing : forall k, k ∈ processing s <-> job_status k s = Some Processing;
  inv2_queue : forall k, In k (queue s) <-> job_status k s = Some Queued;
  inv2_timers : timers s ⊆ engines s;
  inv2_jobs : forall k j, jobs s !! k = Some j -> job_ok j
}.

(** A step that finishes job [x]: its record gets a status other than
    [queued] and [processing], it leaves the queue and the processing set,
    and nothing else changes in the registry, the queue or the set. *)
Lemma inv2_release s t x :
  inv2 s -> nextId t = nextId s ->
  (forall k, k <> x -> jobs t !! k = jobs s !! k) ->
  (forall k, k ∈ processing t <-> k ∈ processing s /\ k <> x) ->
  (forall k, k <> x -> (In k (queue t) <-> In k (queue s))) ->
  ~ In x (queue t) ->
  timers t ⊆ engines t ->
  (jobs t !! x = None /\ jobs s !! x = None \/
   exists j j', jobs s !! x = Some j /\ jobs t !! x = Some j' /\ jobId j' = jobId j /\
     status j' <> Queued /\ status j' <> Processing /\ job_ok j') ->
  inv2 t.
Proof.
  intros [Hd Hid Hp Hq Ht Hok] Hn Hother Hpt Hqt Hnx Htt Hx.
  assert (Hxs : job_status x t <> Some Queued /\ job_status x t <> Some Processing).
  { unfold job_status.
    destruct Hx as [[-> _]|(j & j' & _ & -> & _ & Hq' & Hp' & _)]; simpl; split; congruence. }
  assert (Hst : forall k, k <> x -> job_status k t = job_status k s).
  { intros k Hk. unfold job_status. by rewrite Hother. }
  constructor.
  - intros k Hk. rewrite Hn in Hk. destruct (decide (k = x)) as [->|Hne].
    + destruct Hx as [[_ Hs]|(j & j' & _ & Hj' & _)]; [|by rewrite Hj'].
      specialize (Hd x Hk). rewrite Hs in Hd. by apply is_Some_None in Hd.
    + rewrite Hother by done. by apply Hd.
  - intros k j Hk. destruct (decide (k = x)) as [->|Hne].
    + destruct Hx as [[Hs _]|(j0 & j' & Hj0 & Hj' & Hid' & _)]; [congruence|].
      rewrite Hj' in Hk. injection Hk as <-. rewrite Hid'. by apply (Hid x).
    + rewrite Hother in Hk by done. by apply Hid.
  - intros k. rewrite Hpt. destruct (decide (k = x)) as [->|Hne].
    + split; [intros [_ Hxx]; congruence|intros H; by destruct Hxs].
    + rewrite Hst, <- Hp by done. tauto.
  - intros k. destruct (decide (k = x)) as [->|Hne].
    + split; [intros H; contradiction|intros H; by destruct Hxs].
    + rewrite Hst, Hqt by done. apply Hq.
  - exact Htt.
  - intros k j Hk. destruct (decide (k = x)) as [->|Hne].
    + destruct Hx as [[Hs _]|(j0 & j' & _ & Hj' & _ & _ & _ & Hok')]; [congruence|].
      rewrite Hj' in Hk. by injection Hk as <-.
    + rewrite Hother in Hk by done. by apply (Hok k).
Qed.

Lemma inv2_log s e : inv2 s -> inv2 (log e s).
Proof. intros [Hd Hid Hp Hq Ht Hok]. by constructor. Qed.

Lemma inv2_pnj_aux f s :
  StronglySorted lt (queue s) -> inv2 s -> inv2 (processNextJob_aux f s).
Proof.
  revert s; induction f as [|f IH]; intros s Hs Hi; simpl; [done|].
  case_bool_decide as Hcap; [done|].
  destruct (queue s) as [|jid rest] eqn:Hqs; [done|].
  pose proof (StronglySorted_head_notin _ _ Hs) as Hnin.
  assert (Hrest : forall k, k <> jid -> (In k rest <-> In k (queue s))).
  { intros k Hk. rewrite Hqs. simpl. split; [tauto|intros [->|H]; [congruence|done]]. }
  destruct Hi as [Hd Hid Hp Hq Ht Hok].
  destruct (jobs s !! jid) as [job|] eqn:Hj.
  - assert (Hjq : status job = Queued).
    { assert (Hin : In jid (queue s)) by (rewrite Hqs; by left).
      apply Hq in Hin. unfold job_status in Hin. rewrite Hj in Hin. by injection Hin. }
    constructor; simpl.
    + intros k Hk. rewrite lookup_insert. case_decide; [done|]. by apply Hd.
    + intros k j. rewrite lookup_insert. case_decide as Hk.
      * subst k. intros [= <-]. simpl. by apply Hid.
      * apply Hid.
    + intros k. unfold job_status; simpl.
      rewrite elem_of_union, elem_of_singleton, lookup_insert.
      case_decide as Hk; [subst k; simpl; tauto|].
      specialize (Hp k). unfold job_status in Hp. rewrite <- Hp.
      split; [intros [->|H]; [congruence|done]|tauto].
    + intros k. unfold job_status; simpl. rewrite lookup_insert. case_decide as Hk.
      * subst k. simpl. split; [contradiction|discriminate].
      * rewrite Hrest by congruence. specialize (Hq k). unfold job_status in Hq. exact Hq.
    + set_solver.
    + intros k j. rewrite lookup_insert. case_decide as Hk.
      * subst k. intros [= <-]. destruct (Hok jid job Hj) as (Hc & _ & _).
        assert (Hcn : completedAt job = None) by (apply Hc; by left).
        unfold job_ok; simpl. split; [split; [by right|done]|split; discriminate].
      * apply Hok.
  - apply IH; [by apply StronglySorted_inv in Hs as [? _]|].
    constructor; simpl; try done.
    intros k. destruct (decide (k = jid)) as [->|Hk].
    + unfold job_status. simpl. rewrite Hj. simpl. split; [done|discriminate].
    + rewrite Hrest by done. apply Hq.
Qed.

Lemma inv2_pnj c s : StronglySorted lt (queue s) -> inv2 s -> inv2 (processNextJob c s).
Proof. intros Hs Hi. unfold processNextJob. apply inv2_pnj_aux; [exact Hs|by apply inv2_log]. Qed.

Lemma inv2_enqueue i o f s : inv s -> inv2 s -> inv2 (enqueue i o f s).
Proof.
  intros Hi [Hd Hid Hp Hq Ht Hok].
  pose proof (inv_fresh s Hi (nextId s) (le_n _)) as Hfresh.
  constructor; simpl.
  - intros k Hk. rewrite lookup_insert. case_decide; [done|]. apply Hd. lia.
  - intros k j. rewrite lookup_insert. case_decide as Hk; [subst k; by intros [= <-]|apply Hid].
  - intros k. unfold job_status; simpl. rewrite lookup_insert. case_decide as Hk.
    + subst k. simpl. split; [|discriminate]. intros Hin. apply Hp in Hin.
      unfold job_status in Hin. by rewrite Hfresh in Hin.
    + apply Hp.
  - intros k. unfold job_status; simpl. rewrite lookup_insert, in_app_iff. simpl.
    case_decide as Hk.
    + subst k. simpl. split; intros _; [done|right; by left].
    + specialize (Hq k). unfold job_status in Hq. rewrite <- Hq.
      split; [intros [H|[H|[]]]; [done|congruence]|tauto].
  - done.
  - intros k j. rewrite lookup_insert. case_decide as Hk.
    + intros [= <-]. unfold job_ok; simpl. split; [tauto|split; discriminate].
    + apply Hok.
Qed.

Lemma inv2_queueJob i o f s : inv s -> inv2 s -> inv2 (snd (queueJob i o f s)).
Proof.
  intros Hi Hi2. rewrite queueJob_unfold. simpl. apply inv2_pnj; [|by apply inv2_enqueue].
  simpl. apply StronglySorted_snoc; [exact (inv_sorted s Hi)|].
  intros x Hx. destruct (inv_queued s Hi x Hx) as (j & Hj & _). exact (inv_lt s x j Hi Hj).
Qed.

Lemma job_ok_terminal j st t e md :
  st <> Queued -> st <> Processing ->
  (st = Failed -> is_Some e) -> (st = Completed -> progress j = 100%Z /\ is_Some md) ->
  job_ok (mkJob (jobId j) (inputPath j) (outputPath j) (originalFilename j) st
            (progress j) (createdAt j) (Some t) e md).
Proof.
  intros Hq Hp Hf Hc. unfold job_ok; simpl.
  split; [split; [discriminate|intros [H|H]; contradiction]|tauto].
Qed.

Lemma inv2_cancelJob jid s : inv s -> inv2 s -> inv2 (snd (cancelJob jid s)).
Proof.
  intros Hi Hi2. pose proof Hi2 as [Hd Hid Hp Hq Ht Hok]. unfold cancelJob.
  destruct (jobs s !! jid) as [job|] eqn:Hj; [|done].
  case_bool_decide as Hc; [done|]. simpl.
  destruct (decide (status job = Queued)) as [Hsq|Hsq].
  - rewrite decide_False by congruence.
    assert (Hnp : jid ∉ processing s).
    { intros Hin. apply Hp in Hin. unfold job_status in Hin. rewrite Hj in Hin.
      simpl in Hin. congruence. }
    apply (inv2_release s _ jid Hi2); simpl.
    + done.
    + intros k Hk. by rewrite lookup_insert_ne by congruence.
    + intros k. split; [intros H; split; [done|congruence]|tauto].
    + intros k Hk. split; [apply splice_first_In|by apply splice_first_keeps].
    + apply splice_first_removes, (inv_sorted s Hi).
    + exact Ht.
    + right. eexists _, _. split; [exact Hj|]. split; [by rewrite lookup_insert_eq|].
      simpl. split; [done|]. split; [discriminate|]. split; [discriminate|].
      apply job_ok_terminal; discriminate.
  - rewrite decide_True by (destruct (status job); naive_solver).
    apply (inv2_release s _ jid Hi2); simpl.
    + done.
    + intros k Hk. by rewrite lookup_insert_ne by congruence.
    + intros k. set_solver.
    + intros k Hk. tauto.
    + exact (inv_not_queued s jid job Hi Hj Hsq).
    + exact Ht.
    + right. eexists _, _. split; [exact Hj|]. split; [by rewrite lookup_insert_eq|].
      simpl. split; [done|]. split; [discriminate|]. split; [discriminate|].
      apply job_ok_terminal; discriminate.
Qed.

Lemma inv2_progress_step jid p s :
  inv2 s -> inv2 (set_jobs (alter (onProgress p) jid (jobs s)) s).
Proof.
  intros [Hd Hid Hp Hq Ht Hok].
  assert (Hst : forall k,
    job_status k (set_jobs (alter (onProgress p) jid (jobs s)) s) = job_status k s).
  { intros k. unfold job_status; simpl. rewrite lookup_alter. case_decide; [subst jid|done].
    destruct (jobs s !! k); simpl; [by rewrite onProgress_status|done]. }
  constructor.
  - intros k Hk. simpl. rewrite lookup_alter.
    destruct (Hd k Hk) as [j Hj]. case_decide; [subst jid|]; rewrite Hj; simpl; by eexists.
  - intros k j. simpl. rewrite lookup_alter. case_decide; [subst jid|apply Hid].
    destruct (jobs s !! k) as [j0|] eqn:Hj0; simpl; [|done]. intros [= <-].
    unfold onProgress. case_bool_decide; simpl; by apply (Hid k).
  - intros k. rewrite Hst. apply Hp.
  - intros k. rewrite Hst. apply Hq.
  - exact Ht.
  - intros k j. simpl. rewrite lookup_alter. case_decide; [subst jid|apply Hok].
    destruct (jobs s !! k) as [j0|] eqn:Hj0; simpl; [|done]. intros [= <-].
    destruct (Hok k j0 Hj0) as (H1 & H2 & H3). unfold onProgress.
    case_bool_decide; [|done]. unfold job_ok; simpl.
    split; [done|split; [done|]]. intros Hc. destruct (H3 Hc) as [Hp100 Hm].
    split; [lia|done].
Qed.

Lemma inv2_onTimeout jid s : inv s -> inv2 s -> jid ∈ timers s -> inv2 (onTimeout jid s).
Proof.
  intros Hi Hi2 Hin. pose proof (inv_started_not_queued s jid Hi (or_introl Hin)) as Hnq.
  pose proof Hi2 as [Hd Hid Hp Hq Ht Hok].
  unfold onTimeout. change (jobs (set_timers (timers s ∖ {[jid]}) s)) with (jobs s).
  destruct (jobs s !! jid) as [job|] eqn:Hj;
    (apply inv2_pnj; [exact (inv_sorted s Hi)|]);
    apply (inv2_release s _ jid Hi2); simpl; try done.
  - intros k Hk. by rewrite lookup_insert_ne by congruence.
  - intros k. set_solver.
  - set_solver.
  - right. eexists _, _. split; [exact Hj|]. split; [by rewrite lookup_insert_eq|].
    simpl. split; [done|]. split; [discriminate|]. split; [discriminate|].
    apply job_ok_terminal; [discriminate|discriminate|intros _; by eexists|discriminate].
  - intros k. set_solver.
  - set_solver.
  - by left.
Qed.

Lemma inv2_onEngineResolve jid md s :
  inv s -> inv2 s -> jid ∈ engines s -> inv2 (onEngineResolve jid md s).
Proof.
  intros Hi Hi2 Hin. pose proof (inv_started_not_queued s jid Hi (or_intror Hin)) as Hnq.
  destruct (inv_started s Hi jid (or_intror Hin)) as (job & Hj & Hjq).
  pose proof Hi2 as [Hd Hid Hp Hq Ht Hok].
  unfold onEngineResolve, finallyBlock.
  change (jobs (set_engines (engines s ∖ {[jid]}) s)) with (jobs s). rewrite Hj.
  case_decide as Hc;
    (apply inv2_pnj; [exact (inv_sorted s Hi)|]);
    apply (inv2_release s _ jid Hi2); simpl; try done.
  - intros k. set_solver.
  - set_solver.
  - right. exists job, job. split; [done|]. split; [done|]. split; [done|].
    rewrite Hc. split; [discriminate|]. split; [discriminate|]. by apply (Hok jid).
  - intros k Hk. by rewrite lookup_insert_ne by congruence.
  - intros k. set_solver.
  - set_solver.
  - right. eexists _, _. split; [exact Hj|]. split; [by rewrite lookup_insert_eq|].
    simpl. split; [done|]. split; [discriminate|]. split; [discriminate|].
    apply job_ok_terminal; [discriminate|discriminate|discriminate|].
    intros _. split; [done|by eexists].
Qed.

Lemma inv2_onEngineReject jid err s :
  inv s -> inv2 s -> jid ∈ engines s -> inv2 (onEngineReject jid err s).
Proof.
  intros Hi Hi2 Hin. pose proof (inv_started_not_queued s jid Hi (or_intror Hin)) as Hnq.
  destruct (inv_started s Hi jid (or_intror Hin)) as (job & Hj & Hjq).
  pose proof Hi2 as [Hd Hid Hp Hq Ht Hok].
  unfold onEngineReject, finallyBlock.
  change (jobs (clearTimeout jid (set_engines (engines s ∖ {[jid]}) s))) with (jobs s).
  rewrite Hj. apply inv2_pnj; [exact (inv_sorted s Hi)|].
  apply (inv2_release s _ jid Hi2); simpl; try done.
  - intros k Hk. by rewrite lookup_insert_ne by congruence.
  - intros k. set_solver.
  - set_solver.
  - right. eexists _, _. split; [exact Hj|]. split; [by rewrite lookup_insert_eq|].
    simpl. split; [done|]. split; [discriminate|]. split; [discriminate|].
    apply job_ok_terminal; [discriminate|discriminate|intros _; by eexists|discriminate].
Qed.

Lemma inv2_step s e s' : inv s -> inv2 s -> step s e = Some s' -> inv2 s'.
Proof.
  intros Hi Hi2 Hs. destruct e; simpl in Hs.
  - injection Hs as <-. by apply inv2_queueJob.
  - injection Hs as <-. by apply inv2_cancelJob.
  - case_bool_decide; [|done]. injection Hs as <-. by apply inv2_progress_step.
  - case_bool_decide; [|done]. injection Hs as <-. by apply inv2_onEngineResolve.
  - case_bool_decide; [|done]. injection Hs as <-. by apply inv2_onEngineReject.
  - case_bool_decide; [|done]. injection Hs as <-. by apply inv2_onTimeout.
  - injection Hs as <-. destruct Hi2 as [Hd Hid Hp Hq Ht Hok]. by constructor.
Qed.

Lemma reachable_inv2 s : reachable s -> inv2 s.
Proof.
  induction 1 as [c t|s s' e Hr IH Hs].
  - constructor; simpl.
    + intros k Hk. lia.
    + intros k j. by rewrite lookup_empty.
    + intros k. unfold job_status. simpl. rewrite lookup_empty. simpl.
      split; [set_solver|discriminate].
    + intros k. unfold job_status. simpl. rewrite lookup_empty. simpl.
      split; [done|discriminate].
    + done.
    + intros k j. by rewrite lookup_empty.
  - exact (inv2_step s e s' (reachable_inv s Hr) IH Hs).
Qed.

(** ** Properties of the service beyond the specification *)

(** [getJobStatus] on a reachable state: it returns [null] exactly for
    the ids never handed out by [queueJob] (no record is ever removed);
    otherwise it reports the queried id, a progress in [0, 100], and an
    [outputFile] exactly when the job is [completed]. *)
Theorem getJobStatus_registry s k :
  reachable s ->
  (getJobStatus k s = None <-> (nextId s <= k)%nat) /\
  (forall st, getJobStatus k s = Some st ->
     statusJobId st = k /\ (0 <= statusProgress st <= 100)%Z /\
     (statusOutputFile st <> None <-> statusStatus st = Completed)).
Proof.
  intros Hr. pose proof (reachable_inv s Hr) as Hi. pose proof (reachable_inv2 s Hr) as Hi2.
  unfold getJobStatus. split.
  - destruct (jobs s !! k) as [j|] eqn:Hj; split; intros H.
    + discriminate.
    + rewrite (inv_fresh s Hi k H) in Hj. discriminate.
    + destruct (decide (nextId s <= k)%nat) as [|Hlt]; [done|].
      destruct (inv2_dom s Hi2 k ltac:(lia)) as [j Hj']. congruence.
    + done.
  - intros st. destruct (jobs s !! k) as [j|] eqn:Hj; [|discriminate].
    intros [= <-]. simpl. split; [exact (inv2_ids s Hi2 k j Hj)|].
    split; [exact (inv_progress s Hi k j Hj)|].
    case_decide as Hc.
    + split; [intros _; exact Hc|discriminate].
    + split; [intros H; by destruct H|intros H; contradiction].
Qed.

(** [getProcessingCount] on a reachable state: an id is in the processing
    set exactly when its job has status [processing], so the count is the
    number of jobs in that status. *)
Theorem processing_count_matches_status s :
  reachable s ->
  (forall k, k ∈ processing s <-> job_status k s = Some Processing) /\
  getProcessingCount s
    = length (filter (fun k => job_status k s = Some Processing) (seq 0 (nextId s))).
Proof.
  intros Hr. pose proof (reachable_inv s Hr) as Hi. pose proof (reachable_inv2 s Hr) as Hi2.
  split; [exact (inv2_processing s Hi2)|].
  unfold getProcessingCount, size, set_size. simpl.
  apply length_same_members; [apply NoDup_elements|apply NoDup_filter, NoDup_seq|].
  intros x. rewrite elem_of_elements, list_elem_of_filter, elem_of_seq, (inv2_processing s Hi2).
  split; [|tauto]. intros Hx. split; [done|].
  unfold job_status in Hx. destruct (jobs s !! x) as [j|] eqn:Hj; [|discriminate].
  pose proof (inv_lt s x j Hi Hj). lia.
Qed.

(** [getQueueLength] on a reachable state: the queue has no duplicates and
    holds exactly the jobs with status [queued], so its length is the
    number of jobs in that status. *)
Theorem queue_length_matches_status s :
  reachable s ->
  NoDup (queue s) /\
  (forall k, In k (queue s) <-> job_status k s = Some Queued) /\
  getQueueLength s
    = length (filter (fun k => job_status k s = Some Queued) (seq 0 (nextId s))).
Proof.
  intros Hr. pose proof (reachable_inv s Hr) as Hi. pose proof (reachable_inv2 s Hr) as Hi2.
  pose proof (StronglySorted_NoDup _ (inv_sorted s Hi)) as Hnd.
  split; [done|]. split; [exact (inv2_queue s Hi2)|].
  unfold getQueueLength.
  apply length_same_members; [done|apply NoDup_filter, NoDup_seq|].
  intros x. rewrite list_elem_of_In, list_elem_of_filter, elem_of_seq, (inv2_queue s Hi2).
  split; [|tauto]. intros Hx. split; [done|].
  unfold job_status in Hx. destruct (jobs s !! x) as [j|] eqn:Hj; [|discriminate].
  pose proof (inv_lt s x j Hi Hj). lia.
Qed.

(** The fields of every record of a reachable state agree with its
    status: [completedAt] is set exactly when the job is no longer
    [queued] or [processing]; a [failed] job always carries an error; a
    [completed] job has progress 100 and its audio metadata. *)
Theorem job_record_consistent s k j :
  reachable s -> jobs s !! k = Some j ->
  (completedAt j = None <-> status j = Queued \/ status j = Processing) /\
  (status j = Failed -> error j <> None) /\
  (status j = Completed -> progress j = 100%Z /\ metadata j <> None).
Proof.
  intros Hr Hj. destruct (inv2_jobs s (reachable_inv2 s Hr) k j Hj) as (H1 & H2 & H3).
  split; [exact H1|]. split.
  - intros Hf. destruct (H2 Hf) as [e He]. by rewrite He.
  - intros Hc. destruct (H3 Hc) as [Hp [m Hm]]. split; [exact Hp|by rewrite Hm].
Qed.

(** [queueJob] returns an id that had no record, and registers under it a
    record with the given paths and file name, progress 0, [createdAt] the
    current time, no [completedAt], error or metadata, and status [queued]
    or (when admitted at once) [processing]. *)
Theorem queueJob_registers s i o f :
  reachable s ->
  fst (queueJob i o f s) = nextId s /\ jobs s !! nextId s = None /\
  exists st, jobs (snd (queueJob i o f s)) !! nextId s
               = Some (mkJob (nextId s) i o f st 0 (clock s) None None None) /\
             (st = Queued \/ st = Processing).
Proof.
  intros Hr. pose proof (reachable_inv s Hr) as Hi. rewrite queueJob_unfold. simpl.
  split; [done|]. split; [exact (inv_fresh s Hi (nextId s) (le_n _))|].
  destruct (pnj_lookup None (enqueue i o f s) (nextId s)) as [Heq|(j & Hj & Heq)];
    rewrite Heq; simpl in *; rewrite lookup_insert_eq in *.
  - exists Queued. split; [done|by left].
  - injection Hj as <-. exists Processing. split; [done|by right].
Qed.

(** Admission in [queueJob]: with an empty queue and a free slot, the new
    job starts at once (status [processing], in the processing set, its
    watchdog armed and the engine called); with no free slot it waits at
    the tail of the queue and the processing set is unchanged. *)
Theorem queueJob_admission s i o f :
  (queue s = [] -> (Z.of_nat (size (processing s)) < maxConcurrentJobs s)%Z ->
     job_status (nextId s) (snd (queueJob i o f s)) = Some Processing /\
     nextId s ∈ processing (snd (queueJob i o f s)) /\
     nextId s ∈ timers (snd (queueJob i o f s)) /\
     nextId s ∈ engines (snd (queueJob i o f s)) /\
     queue (snd (queueJob i o f s)) = []) /\
  ((maxConcurrentJobs s <= Z.of_nat (size (processing s)))%Z ->
     job_status (nextId s) (snd (queueJob i o f s)) = Some Queued /\
     queue (snd (queueJob i o f s)) = queue s ++ [nextId s] /\
     processing (snd (queueJob i o f s)) = processing s).
Proof.
  rewrite queueJob_unfold. simpl. unfold processNextJob. split.
  - intros Hq Hcap. cbn [processNextJob_aux].
    rewrite bool_decide_false by (simpl; lia). simpl. rewrite Hq. simpl.
    rewrite lookup_insert_eq. unfold job_status. simpl.
    rewrite lookup_insert_eq. simpl. set_solver.
  - intros Hfull. cbn [processNextJob_aux].
    rewrite bool_decide_true by (simpl; lia). unfold job_status. simpl.
    rewrite lookup_insert_eq. done.
Qed.

(** [cancelJob] neither disarms the watchdog nor stops the engine of a
    running job, and it does not hand the freed slot to a queued job: no
    record other than the cancelled one changes, the queue and the
    processing set only lose members, and [processNextJob] is not
    called. *)
Theorem cancelJob_keeps_engine s jid :
  timers (snd (cancelJob jid s)) = timers s /\
  engines (snd (cancelJob jid s)) = engines s /\
  processing (snd (cancelJob jid s)) ⊆ processing s /\
  (forall k, In k (queue (snd (cancelJob jid s))) -> In k (queue s)) /\
  (forall k, k <> jid -> jobs (snd (cancelJob jid s)) !! k = jobs s !! k) /\
  (forall c, count_effect (ProcessNextJob c) (effects (snd (cancelJob jid s)))
             = count_effect (ProcessNextJob c) (effects s)).
Proof.
  unfold cancelJob. destruct (jobs s !! jid) as [job|]; [|done].
  case_bool_decide as Hc; [done|]. simpl.
  destruct (decide (status job = Queued)) as [Hq|Hq].
  - rewrite decide_False by congruence. simpl.
    split; [done|]. split; [done|]. split; [done|].
    split; [intros k; apply splice_first_In|]. split.
    + intros k Hk. by rewrite lookup_insert_ne by congruence.
    + intros c. rewrite count_effect_app, count_effect_other by discriminate. lia.
  - rewrite decide_True by (destruct (status job); naive_solver). simpl.
    split; [done|]. split; [done|]. split; [set_solver|].
    split; [done|]. split.
    + intros k Hk. by rewrite lookup_insert_ne by congruence.
    + intros c. rewrite !count_effect_app, !count_effect_other by discriminate. lia.
Qed.

(** Cancelling twice: whatever the first [cancelJob] did, a second call on
    the same id returns [false] and changes nothing. *)
Theorem cancelJob_twice s jid :
  cancelJob jid (snd (cancelJob jid s)) = (false, snd (cancelJob jid s)).
Proof.
  destruct (cancelJob jid s) as [b s'] eqn:Hc. simpl. unfold cancelJob in Hc.
  destruct (jobs s !! jid) as [job|] eqn:Hj.
  2:{ injection Hc as <- <-. unfold cancelJob. by rewrite Hj. }
  case_bool_decide as Hst.
  { injection Hc as <- <-. unfold cancelJob. rewrite Hj. by rewrite bool_decide_true. }
  injection Hc as <- <-.
  match goal with |- context [set_jobs (<[jid:=?jb]> ?m) ?s2] =>
    set (J := jb); set (M := m); set (S2 := s2) end.
  assert (HJ : status J = Cancelled) by reflexivity.
  clearbody J M S2. unfold cancelJob at 1. cbn [jobs log set_jobs].
  rewrite lookup_insert_eq, bool_decide_true by (rewrite HJ; split; discriminate).
  reflexivity.
Qed.

(** Engine success on a job that is not [cancelled]: the record becomes
    [completed] with progress 100, the metadata and [completedAt] now;
    [getJobStatus] reports it with the output path; the job has left the
    processing set, its watchdog is disarmed and its engine call done. *)
Theorem engine_success_completes s jid j md s' :
  reachable s -> jobs s !! jid = Some j -> status j <> Cancelled ->
  step s (EvEngineResolve jid md) = Some s' ->
  jobs s' !! jid = Some (set_completedAt (Some (clock s))
                          (set_metadata (Some md) (set_progress 100 (set_status Completed j)))) /\
  getJobStatus jid s' = Some (mkConversionStatus jid Completed 100
                               "Conversion completed successfully" (Some (outputPath j))) /\
  (jid ∉ processing s') /\ (jid ∉ timers s') /\ (jid ∉ engines s').
Proof.
  intros Hr Hj Hc Hs. pose proof (reachable_inv s Hr) as Hi.
  pose proof (inv2_ids s (reachable_inv2 s Hr) jid j Hj) as Hid.
  simpl in Hs. case_bool_decide as Hin; [|done]. injection Hs as Hs.
  pose proof (inv_started_not_queued s jid Hi (or_intror Hin)) as Hnq.
  unfold onEngineResolve, finallyBlock in Hs.
  change (jobs (set_engines (engines s ∖ {[jid]}) s)) with (jobs s) in Hs.
  rewrite Hj, decide_False in Hs by done.
  match type of Hs with processNextJob ?c ?t = _ =>
    pose proof (pnj_other c t jid Hnq) as Hl;
    pose proof (pnj_sets c t jid) as (Hp & Ht & He) end.
  rewrite Hs in Hl, Hp, Ht, He. simpl in Hl, Hp, Ht, He. rewrite lookup_insert_eq in Hl.
  split; [exact Hl|]. split.
  - unfold getJobStatus. rewrite Hl. simpl. rewrite Hid. reflexivity.
  - split; [|split]; intros H;
      [destruct (Hp H) as [H'|H']|destruct (Ht H) as [H'|H']|destruct (He H) as [H'|H']];
      try contradiction; set_solver.
Qed.

(** Engine failure: the record becomes [failed], with the rejection's
    message (or ["Unknown error occurred"]) as error and [completedAt]
    now, whatever its status was; the job leaves the processing set, its
    watchdog is disarmed and its engine call done. *)
Theorem engine_failure_fails s jid j err s' :
  reachable s -> jobs s !! jid = Some j ->
  step s (EvEngineReject jid err) = Some s' ->
  jobs s' !! jid = Some (set_completedAt (Some (clock s))
                          (set_error (Some (default "Unknown error occurred"%string err))
                            (set_status Failed j))) /\
  (jid ∉ processing s') /\ (jid ∉ timers s') /\ (jid ∉ engines s').
Proof.
  intros Hr Hj Hs. pose proof (reachable_inv s Hr) as Hi.
  simpl in Hs. case_bool_decide as Hin; [|done]. injection Hs as Hs.
  pose proof (inv_started_not_queued s jid Hi (or_intror Hin)) as Hnq.
  unfold onEngineReject, finallyBlock in Hs.
  change (jobs (clearTimeout jid (set_engines (engines s ∖ {[jid]}) s))) with (jobs s) in Hs.
  rewrite Hj in Hs.
  match type of Hs with processNextJob ?c ?t = _ =>
    pose proof (pnj_other c t jid Hnq) as Hl;
    pose proof (pnj_sets c t jid) as (Hp & Ht & He) end.
  rewrite Hs in Hl, Hp, Ht, He. simpl in Hl, Hp, Ht, He. rewrite lookup_insert_eq in Hl.
  split; [rewrite Hl; by destruct err|].
  split; [|split]; intros H;
    [destruct (Hp H) as [H'|H']|destruct (Ht H) as [H'|H']|destruct (He H) as [H'|H']];
    try contradiction; set_solver.
Qed.

(** The watchdog firing: the record becomes [failed] with error
    ["Conversion timeout exceeded"] and [completedAt] now, and the job
    leaves the processing set; but the engine call is not stopped, it is
    still pending afterwards. *)
Theorem timeout_leaves_engine_pending s jid j s' :
  reachable s -> jobs s !! jid = Some j ->
  step s (EvTimeout jid) = Some s' ->
  jobs s' !! jid = Some (set_completedAt (Some (clock s))
                          (set_error (Some "Conversion timeout exceeded"%string)
                            (set_status Failed j))) /\
  (jid ∉ processing s') /\ (jid ∉ timers s') /\ (jid ∈ engines s').
Proof.
  intros Hr Hj Hs. pose proof (reachable_inv s Hr) as Hi.
  pose proof (inv2_timers s (reachable_inv2 s Hr)) as Hte.
  simpl in Hs. case_bool_decide as Hin; [|done]. injection Hs as Hs.
  pose proof (inv_started_not_queued s jid Hi (or_introl Hin)) as Hnq.
  unfold onTimeout in Hs.
  change (jobs (set_timers (timers s ∖ {[jid]}) s)) with (jobs s) in Hs. rewrite Hj in Hs.
  match type of Hs with processNextJob ?c ?t = _ =>
    pose proof (pnj_other c t jid Hnq) as Hl;
    pose proof (pnj_sets c t jid) as (Hp & Ht & _);
    pose proof (pnj_mono c t) as (_ & _ & He) end.
  rewrite Hs in Hl, Hp, Ht, He. simpl in Hl, Hp, Ht, He. rewrite lookup_insert_eq in Hl.
  split; [exact Hl|]. split; [|split].
  - intros H. destruct (Hp H) as [H'|H']; [set_solver|contradiction].
  - intros H. destruct (Ht H) as [H'|H']; [set_solver|contradiction].
  - apply He. set_solver.
Qed.

(** [getStatusMessage] never returns the empty string.  For a failed
    job it is the error when that is a non-empty string, and ["Conversion
    failed"] when the error is missing or empty. *)
Theorem getStatusMessage_nonempty j :
  getStatusMessage j <> EmptyString /\
  (status j = Failed -> error j = None \/ error j = Some EmptyString ->
     getStatusMessage j = "Conversion failed"%string) /\
  (status j = Failed -> forall e, error j = Some e -> e <> EmptyString ->
     getStatusMessage j = e).
Proof.
  unfold getStatusMessage, or_string. split; [|split].
  - destruct (status j); try discriminate.
    destruct (error j) as [e|]; [|discriminate]. by case_bool_decide.
  - intros -> [-> | ->]; [done|]. by rewrite bool_decide_true.
  - intros -> e -> He. by rewrite bool_decide_false.
Qed.

Lemma segments_aux_plain s acc :
  forallb (fun c => negb (Ascii.eqb c "/"%char)) (String.list_ascii_of_string s) = true ->
  segments_aux s acc = [String.string_of_list_ascii (rev acc ++ String.list_ascii_of_string s)].
Proof.
  revert acc; induction s as [|c s IH]; intros acc H; simpl.
  - by rewrite app_nil_r.
  - simpl in H. apply andb_prop in H as [Hc H].
    destruct (Ascii.eqb c "/"%char); [discriminate|].
    rewrite IH by done. simpl. by rewrite <- app_assoc.
Qed.

Lemma normalize_aux_app st l1 l2 :
  normalize_aux st (l1 ++ l2) = normalize_aux (normalize_aux st l1) l2.
Proof.
  revert st; induction l1 as [|x l1 IH]; intros st; simpl; [done|].
  case_bool_decide; [apply IH|]. case_bool_decide; apply IH.
Qed.

(** For an id that is a single path segment, the job directory is the
    entry [jobId] of the uploads directory. *)
Lemma jobDirPath_plain cwd u jobId :
  plain_segment jobId = true -> jobDirPath cwd u jobId = uploadsPath cwd u ++ [jobId].
Proof.
  unfold plain_segment. intros H. apply andb_prop in H as [Hs Hf].
  apply bool_decide_eq_true in Hs as (H1 & H2 & H3).
  unfold jobDirPath, uploadsPath, resolve_segments, segments.
  rewrite app_assoc, normalize_aux_app, (segments_aux_plain jobId []); [simpl|exact Hf].
  rewrite String.string_of_list_ascii_of_string.
  rewrite bool_decide_false by tauto. rewrite bool_decide_false by done. done.
Qed.

(** [cleanupJob] forgets the delayed-cleanup timer of the job in every
    case, also when [fs.rm] throws, and touches no other timer; it
    rethrows only an error other than [ENOENT].  When it does not throw:
    after a successful [fs.rm] exactly the paths at or below
    [path.join(uploadsDir, jobId)] are gone (after a swallowed [ENOENT]
    nothing changed); for an id that is a single path segment, every path
    outside the job's own directory is kept; and a second run with a
    successful [fs.rm] changes nothing. *)
Theorem cleanupJob_spec cwd jobId rm paths fm :
  (jobId ∉ cleanupTimers (snd (cleanupJob cwd jobId rm paths fm))) /\
  (forall x, x <> jobId ->
     (x ∈ cleanupTimers (snd (cleanupJob cwd jobId rm paths fm)) <-> x ∈ cleanupTimers fm)) /\
  uploadsDir (snd (cleanupJob cwd jobId rm paths fm)) = uploadsDir fm /\
  match fst (cleanupJob cwd jobId rm paths fm) with
  | inl code => rm = Some code /\ code <> "ENOENT"%string
  | inr paths' =>
      (rm = None -> forall q,
         q ∈ paths' <-> q ∈ paths /\ ~ jobDirPath cwd (uploadsDir fm) jobId `prefix_of` q) /\
      (rm <> None -> paths' = paths) /\
      (plain_segment jobId = true -> forall q, q ∈ paths ->
         ~ (uploadsPath cwd (uploadsDir fm) ++ [jobId]) `prefix_of` q -> q ∈ paths') /\
      (rm = None -> cleanupJob cwd jobId None paths' (snd (cleanupJob cwd jobId rm paths fm))
                    = (inr paths', snd (cleanupJob cwd jobId rm paths fm)))
  end.
Proof.
  unfold cleanupJob. cbv zeta.
  set (fm' := if bool_decide (jobId ∈ cleanupTimers fm)
              then mkFileManager (uploadsDir fm) (cleanupTimers fm ∖ {[jobId]}) else fm).
  assert (Hfm' : (jobId ∉ cleanupTimers fm') /\
     (forall x, x <> jobId -> (x ∈ cleanupTimers fm' <-> x ∈ cleanupTimers fm)) /\
     uploadsDir fm' = uploadsDir fm).
  { unfold fm'. case_bool_decide as Hin; simpl; [set_solver|].
    split; [done|]. split; [tauto|done]. }
  assert (Hagain : bool_decide (jobId ∈ cleanupTimers fm') = false).
  { apply bool_decide_false, Hfm'. }
  clearbody fm'. destruct Hfm' as (H1 & H2 & H3).
  destruct rm as [code|].
  - destruct (bool_decide (code = "ENOENT"%string)) eqn:He; simpl.
    + split; [done|]. split; [done|]. split; [done|].
      split; [intros Hn; discriminate Hn|]. split; [done|]. split; [|intros Hn; discriminate Hn].
      intros _ q Hq _. exact Hq.
    + split; [done|]. split; [done|]. split; [done|].
      split; [done|]. intros ->. by apply bool_decide_eq_false in He.
  - simpl. split; [done|]. split; [done|]. split; [done|].
    split; [intros _ q; rewrite elem_of_filter; tauto|].
    split; [intros Hn; by destruct Hn|]. split.
    + intros Hp q Hq Hn. apply elem_of_filter. split; [|done].
      by rewrite jobDirPath_plain.
    + intros _. rewrite Hagain, H3. f_equal. f_equal.
      apply set_eq. intros q. rewrite !elem_of_filter. tauto.
Qed.

(** ** Properties of the FFmpeg wrapper *)

Lemma or_number_nonzero a d : d <> 0%Z -> or_number a d <> 0%Z.
Proof. unfold or_number. destruct a as [v|]; [case_bool_decide|]; done. Qed.

Lemma or_string_nonempty a d : d <> EmptyString -> or_string a d <> EmptyString.
Proof. unfold or_string. destruct a as [v|]; [case_bool_decide|]; done. Qed.

Lemma sampleFmtBitDepth_range f :
  sampleFmtBitDepth f = 16%Z \/ sampleFmtBitDepth f = 24%Z \/ sampleFmtBitDepth f = 32%Z.
Proof.
  unfold sampleFmtBitDepth. destruct f as [v|]; [|by left].
  case_bool_decide; [by left|].
  destruct (includes v "s32" || includes v "flt" || includes v "dbl"); [by right; right|].
  destruct (includes v "s24"); [by right; left|].
  destruct (includes v "s16"); by left.
Qed.

Lemma append_nonempty_l (a b : string) : a <> EmptyString -> String.append a b <> EmptyString.
Proof. destruct a; [done|discriminate]. Qed.

(** [getAudioInfo] never reports a sample rate or a channel count of 0 or
    an empty codec name (the defaults 48000, 2 and ["unknown"] replace
    them), its bit depth is 16, 24 or 32, and its error messages are not
    empty. *)
Theorem getAudioInfo_defaults probe :
  match getAudioInfo probe with
  | inr info =>
      sampleRate info <> 0%Z /\ channels info <> 0%Z /\ codec info <> EmptyString /\
      (bitDepth info = 16 \/ bitDepth info = 24 \/ bitDepth info = 32)%Z
  | inl msg => msg <> EmptyString
  end.
Proof.
  unfold getAudioInfo. destruct probe as [msg|metadata].
  - by apply append_nonempty_l.
  - destruct (find_stream "audio" (streams metadata)) as [a|]; [|discriminate]. simpl.
    split; [by apply or_number_nonzero|]. split; [by apply or_number_nonzero|].
    split; [by apply or_string_nonempty|]. apply sampleFmtBitDepth_range.
Qed.

Lemma runCommand_calls h info evs settled :
  Forall (fun v => 0 <= v <= 100)%Z (fst (runCommand h info evs settled)).
Proof.
  revert settled; induction evs as [|[p| |m] evs IH]; intros settled; simpl.
  - constructor.
  - specialize (IH settled). destruct (runCommand h info evs settled) as [calls r]. simpl in *.
    apply Forall_app. split; [|exact IH].
    destruct p as [p|]; [|constructor].
    destruct (h && negb (bool_decide (p = 0%Z))); [|constructor].
    constructor; [lia|constructor].
  - apply IH.
  - apply IH.
Qed.

(** Every value [extractAudio] passes to its [onProgress] callback lies in
    [0, 100], whatever [ffmpeg] reports. *)
Theorem extractAudio_progress_bounded probe1 probe2 hasOnProgress evs :
  Forall (fun v => 0 <= v <= 100)%Z
    (progressCalls (extractAudio probe1 probe2 hasOnProgress evs)).
Proof.
  unfold extractAudio.
  destruct (getVideoMetadata probe1) as [e|vm]; [constructor|].
  destruct (negb (hasAudio vm)); [constructor|].
  destruct (getAudioInfo probe2) as [e|info]; [constructor|].
  pose proof (runCommand_calls hasOnProgress info evs None) as H.
  destruct (runCommand hasOnProgress info evs None) as [calls r]. exact H.
Qed.

Lemma runCommand_outcome h info evs settled x :
  (forall y, settled = Some y ->
     match y with inl m => m <> EmptyString | inr md => md = info end) ->
  snd (runCommand h info evs settled) = Some x ->
  match x with inl m => m <> EmptyString | inr md => md = info end.
Proof.
  revert settled; induction evs as [|[p| |m] evs IH]; intros settled Hs; simpl.
  - intros ->. by apply Hs.
  - specialize (IH settled Hs). destruct (runCommand h info evs settled) as [calls r].
    exact IH.
  - apply IH. intros y. unfold settle. destruct settled as [z|]; [apply Hs|].
    intros [= <-]. done.
  - apply IH. intros y. unfold settle. destruct settled as [z|]; [apply Hs|].
    intros [= <-]. by apply append_nonempty_l.
Qed.

(** On the same [ffprobe] result, [getVideoMetadata] reports an audio
    stream exactly when [getAudioInfo] succeeds, and the codec name it
    reports is the one [getAudioInfo] reads (which defaults to
    ["unknown"]). *)
Theorem videoMetadata_agrees_with_audioInfo probe :
  ((exists vm, getVideoMetadata probe = inr vm /\ hasAudio vm = true) <->
   (exists info, getAudioInfo probe = inr info)) /\
  (forall vm info, getVideoMetadata probe = inr vm -> getAudioInfo probe = inr info ->
     codec info = or_string (audioCodec vm) "unknown").
Proof.
  destruct probe as [msg|pd]; simpl.
  - split; [split|].
    + intros (vm & Hvm & _). discriminate Hvm.
    + intros (info & Hi). discriminate Hi.
    + intros vm info Hvm. discriminate Hvm.
  - destruct (find_stream "audio" (streams pd)) as [a|]; simpl.
    + split; [split|].
      * intros _. by eexists.
      * intros _. eexists. split; [reflexivity|done].
      * intros vm info Hvm Hi. injection Hvm as <-. injection Hi as <-. reflexivity.
    + split; [split|].
      * intros (vm & Hvm & Ha). injection Hvm as <-. discriminate Ha.
      * intros (info & Hi). discriminate Hi.
      * intros vm info _ Hi. discriminate Hi.
Qed.

(** The outcome of [extractAudio]: [ffmpeg] is started only when both
    probes succeed and find an audio stream; a rejection always has a
    non-empty message; a resolution gives the [getAudioInfo] metadata, and
    the command then kept its sample rate and channel count and used the
    PCM codec of its bit depth, ["pcm_s<bitDepth>le"]. *)
Theorem extractAudio_outcome probe1 probe2 hasOnProgress evs :
  (command (extractAudio probe1 probe2 hasOnProgress evs) <> None <->
     (exists vm, getVideoMetadata probe1 = inr vm /\ hasAudio vm = true) /\
     (exists info, getAudioInfo probe2 = inr info)) /\
  (forall msg, outcome (extractAudio probe1 probe2 hasOnProgress evs) = Some (inl msg) ->
     msg <> EmptyString) /\
  (forall md, outcome (extractAudio probe1 probe2 hasOnProgress evs) = Some (inr md) ->
     getAudioInfo probe2 = inr md /\
     command (extractAudio probe1 probe2 hasOnProgress evs)
       = Some (String.append "pcm_s" (String.append (pretty (bitDepth md)) "le"),
               sampleRate md, channels md)).
Proof.
  unfold extractAudio.
  destruct (getVideoMetadata probe1) as [e|vm] eqn:Hv.
  { simpl. split.
    { split; [intros H; by destruct H|]. intros [(vm & Hvm & _) _]. discriminate. }
    split; [|intros md Hmd; discriminate Hmd].
    intros msg Hmsg. injection Hmsg as <-.
    destruct probe1 as [m|pd]; simpl in Hv.
    - injection Hv as <-. by apply append_nonempty_l.
    - discriminate. }
  destruct (hasAudio vm) eqn:Ha; simpl.
  2:{ split.
      { split; [intros H; by destruct H|]. intros [(vm' & Hvm & Ha') _]. congruence. }
      split; [intros msg Hmsg; injection Hmsg as <-; discriminate|].
      intros md Hmd; discriminate Hmd. }
  pose proof (getAudioInfo_defaults probe2) as Hdef.
  destruct (getAudioInfo probe2) as [e|info] eqn:Hai; simpl.
  { split.
    { split; [intros H; by destruct H|]. intros [_ (info & Hinfo)]. discriminate. }
    split; [intros msg Hmsg; injection Hmsg as <-; exact Hdef|].
    intros md Hmd; discriminate Hmd. }
  pose proof (runCommand_outcome hasOnProgress info evs None) as Hout.
  destruct (runCommand hasOnProgress info evs None) as [calls r]. simpl in *.
  assert (Hnone : forall y, (None : option (string + AudioMetadata)) = Some y ->
            match y with inl m => m <> EmptyString | inr md => md = info end)
    by (intros y Hy; discriminate Hy).
  split; [split; [intros _; split; [by exists vm|by exists info]|discriminate]|].
  split.
  - intros msg Hr. exact (Hout (inl msg) Hnone Hr).
  - intros md Hr. pose proof (Hout (inr md) Hnone Hr) as ->.
    split; [done|]. destruct Hdef as (_ & _ & _ & Hb).
    destruct Hb as [-> | [-> | ->]]; reflexivity.
Qed.

(** ** Witnesses: the claims' hypotheses hold on concrete runs *)

Lemma cancelled_job_ignores_success_witness :
  jobs (step1 svc_cancelled (EvEngineResolve 0 sample_md)) !! 0 = Some (job_in svc_cancelled 0).
Proof.
  apply (cancelled_job_ignores_success svc_cancelled 0 sample_md (job_in svc_cancelled 0)).
  - apply run1_reachable. vm_compute. reflexivity.
  - vm_compute. reflexivity.
  - vm_compute. reflexivity.
  - vm_compute. reflexivity.
Defined.

Lemma cancelJob_spec_witness :
  In (CleanupJob 1) (effects (snd (cancelJob 1 svc_three))) /\
  ~ In 1 (queue (snd (cancelJob 1 svc_three))).
Proof.
  destruct (cancelJob_spec svc_three 1 true (snd (cancelJob 1 svc_three))) as (_ & Htrue & _).
  - apply run1_reachable. vm_compute. reflexivity.
  - vm_compute. reflexivity.
  - destruct (Htrue eq_refl) as (j & _ & _ & Hq & _ & _ & Hin). split; [exact Hin|exact Hq].
Defined.

Lemma progress_monotone_witness :
  Sorted Z.le (progress (job_in svc_three 0) :: observe_progress svc_three 0 [30; 10; 120]%Z).
Proof.
  destruct (progress_monotone svc_three 0 (job_in svc_three 0) [30; 10; 120]%Z)
    as (_ & _ & Hsort & _).
  - apply run1_reachable. vm_compute. reflexivity.
  - vm_compute. reflexivity.
  - exact Hsort.
Defined.

Lemma processing_within_bound_witness :
  (Z.of_nat (size (processing svc_three)) <= maxConcurrentJobs svc_three)%Z.
Proof.
  destruct (processing_within_bound svc_three) as [Hle _].
  - apply run1_reachable. vm_compute. reflexivity.
  - vm_compute. discriminate.
  - exact Hle.
Defined.

Lemma fifo_admission_witness :
  job_status 1 svc_four = Some Queued /\
  job_status 1 (step1 svc_four (EvEngineResolve 0 sample_md)) = Some Processing /\
  ~ (~ In 3 (queue (step1 svc_four (EvEngineResolve 0 sample_md))) /\
     job_status 3 (step1 svc_four (EvEngineResolve 0 sample_md)) = Some Processing) /\
  processNextJob_aux 1 (mkService ∅ [7] ∅ 1 0 ∅ ∅ 0 0 [])
    = processNextJob_aux 0 (set_queue [] (mkService ∅ [7] ∅ 1 0 ∅ ∅ 0 0 [])).
Proof.
  destruct fifo_admission as [Hfifo Hskip].
  split; [vm_compute; reflexivity|]. split; [vm_compute; reflexivity|]. split.
  - apply (Hfifo svc_four (EvEngineResolve 0 sample_md)
             (step1 svc_four (EvEngineResolve 0 sample_md)) 2 3).
    + apply run1_reachable. vm_compute. reflexivity.
    + vm_compute. reflexivity.
    + vm_compute. tauto.
    + vm_compute. tauto.
    + lia.
    + vm_compute. tauto.
  - apply (Hskip 0 (mkService ∅ [7] ∅ 1 0 ∅ ∅ 0 0 []) 7 []).
    + vm_compute. intros H. exact (H eq_refl).
    + reflexivity.
    + reflexivity.
Defined.

Lemma progress_callback_ignores_status_witness :
  status (job_in svc_cancelled 0) = Cancelled /\
  jobs (step1 svc_cancelled (EvProgress 0 40)) !! 0
    = Some (set_progress (Z.min 100 40) (job_in svc_cancelled 0)).
Proof.
  split; [vm_compute; reflexivity|].
  apply (progress_callback_ignores_status svc_cancelled 0 (job_in svc_cancelled 0) 40).
  - vm_compute. reflexivity.
  - vm_compute. reflexivity.
  - vm_compute. reflexivity.
Defined.


(** ** Witnesses: the hypotheses of the further properties hold on
    concrete runs *)

Lemma getJobStatus_registry_witness :
  (getJobStatus 3 svc_three = None <-> (nextId svc_three <= 3)%nat) /\
  (forall st, getJobStatus 1 svc_three = Some st ->
     statusJobId st = 1%nat /\ (0 <= statusProgress st <= 100)%Z /\
     (statusOutputFile st <> None <-> statusStatus st = Completed)).
Proof.
  split.
  - apply (getJobStatus_registry svc_three 3).
    apply run1_reachable. vm_compute. reflexivity.
  - apply (getJobStatus_registry svc_three 1).
    apply run1_reachable. vm_compute. reflexivity.
Defined.

Lemma processing_count_matches_status_witness :
  getProcessingCount svc_three
    = length (filter (fun k => job_status k svc_three = Some Processing)
                (seq 0 (nextId svc_three))).
Proof.
  apply (processing_count_matches_status svc_three).
  apply run1_reachable. vm_compute. reflexivity.
Defined.

Lemma queue_length_matches_status_witness :
  getQueueLength svc_three
    = length (filter (fun k => job_status k svc_three = Some Queued)
                (seq 0 (nextId svc_three))).
Proof.
  apply (queue_length_matches_status svc_three).
  apply run1_reachable. vm_compute. reflexivity.
Defined.

Lemma job_record_consistent_witness :
  completedAt (job_in svc_cancelled 0) = None <->
  status (job_in svc_cancelled 0) = Queued \/ status (job_in svc_cancelled 0) = Processing.
Proof.
  apply (job_record_consistent svc_cancelled 0 (job_in svc_cancelled 0)).
  - apply run1_reachable. vm_compute. reflexivity.
  - vm_compute. reflexivity.
Defined.

Lemma queueJob_registers_witness :
  fst (queueJob "a.mp4" "a.wav" "a.mp4" svc_three) = nextId svc_three.
Proof.
  apply (queueJob_registers svc_three "a.mp4" "a.wav" "a.mp4").
  apply run1_reachable. vm_compute. reflexivity.
Defined.

Lemma queueJob_admission_witness :
  job_status (nextId service1) (snd (queueJob "a.mp4" "a.wav" "a.mp4" service1))
    = Some Processing /\
  job_status (nextId svc_three) (snd (queueJob "a.mp4" "a.wav" "a.mp4" svc_three))
    = Some Queued.
Proof.
  split.
  - apply (queueJob_admission service1 "a.mp4" "a.wav" "a.mp4"); vm_compute; reflexivity.
  - apply (queueJob_admission svc_three "a.mp4" "a.wav" "a.mp4"). vm_compute. discriminate.
Defined.

Lemma engine_success_completes_witness :
  getJobStatus 0 (step1 svc_three (EvEngineResolve 0 sample_md))
    = Some (mkConversionStatus 0 Completed 100 "Conversion completed successfully"
              (Some (outputPath (job_in svc_three 0)))).
Proof.
  apply (engine_success_completes svc_three 0 (job_in svc_three 0) sample_md).
  - apply run1_reachable. vm_compute. reflexivity.
  - vm_compute. reflexivity.
  - vm_compute. discriminate.
  - vm_compute. reflexivity.
Defined.

Lemma engine_failure_fails_witness :
  0%nat ∉ processing (step1 svc_three (EvEngineReject 0 None)).
Proof.
  apply (engine_failure_fails svc_three 0 (job_in svc_three 0) None).
  - apply run1_reachable. vm_compute. reflexivity.
  - vm_compute. reflexivity.
  - vm_compute. reflexivity.
Defined.

Lemma timeout_leaves_engine_pending_witness :
  0%nat ∈ engines (step1 svc_three (EvTimeout 0)).
Proof.
  apply (timeout_leaves_engine_pending svc_three 0 (job_in svc_three 0)).
  - apply run1_reachable. vm_compute. reflexivity.
  - vm_compute. reflexivity.
  - vm_compute. reflexivity.
Defined.

Lemma cleanupJob_spec_witness :
  exists paths',
    fst (cleanupJob ["srv"] "j1" None
           {[ ["srv"; "uploads"; "j1"; "input.mp4"]; ["srv"; "uploads"; "j2"] ]}
           (mkFileManager "uploads" {["j1"]})) = inr paths' /\
    ["srv"; "uploads"; "j2"] ∈ paths'.
Proof.
  pose proof (cleanupJob_spec ["srv"] "j1" None
    {[ ["srv"; "uploads"; "j1"; "input.mp4"]; ["srv"; "uploads"; "j2"] ]}
    (mkFileManager "uploads" {["j1"]})) as (_ & _ & _ & H).
  destruct (fst (cleanupJob ["srv"] "j1" None
    {[ ["srv"; "uploads"; "j1"; "input.mp4"]; ["srv"; "uploads"; "j2"] ]}
    (mkFileManager "uploads" {["j1"]}))) as [code|paths'] eqn:E.
  - vm_compute in E. discriminate E.
  - exists paths'. split; [reflexivity|]. destruct H as (_ & _ & Hp & _).
    apply Hp.
    + vm_compute. reflexivity.
    + set_solver.
    + intros [k Hk]. vm_compute in Hk. discriminate Hk.
Defined.
